(** * Aurora: a shallow embedding of the request orchestrator

    The development follows [src/Aurora.ts] and [src/errors.ts]:

    - [JsString]   strings as sequences of UTF-16 code units, with the
                   three string operations [normalizeUrl] relies on;
    - [JsNumber]   the numbers the concurrency gate compares;
    - [Errors]     [AuroraPromiseError] and the values a [catch] can see;
    - [Aurora]     the class itself: constructor, gate, default store,
                   [call] split at its single [await], and [recall];
    - the theorems, one section per method group.

    The HTTP transport (axios) is not part of the repository.  It is the
    environment of the model: a dispatch is recorded in a trace together
    with the request object handed over, and the settlement of a pending
    request is an event whose payload (response or thrown value) the
    environment chooses freely.

    [requests.current] only ever holds a count of suspended invocations;
    it is kept as an integer.  [requests.max] and the argument of
    [setMaxConcurrentRequestsLimit] range over all numbers. *)

From Stdlib Require Import QArith.
From stdpp Require Import gmap list fin_maps.
From Stdlib Require Import String Ascii.

#[local] Set Warnings "-clear-no-such-hyp".

Local Open Scope Z_scope.

(* ===================================================================== *)
(** ** Strings *)
(* ===================================================================== *)

Module JsString.

(** A JavaScript string is a finite sequence of 16-bit code units. *)
Abbreviation code_unit := N.
Abbreviation jsstring := (list N).

(** String literals of the development (ASCII only). *)
Definition lit (s : string) : jsstring :=
  List.map N_of_ascii (list_ascii_of_string s).

Definition slash : code_unit := 47%N.

Definition is_slash (c : code_unit) : bool := N.eqb c slash.

(** ECMAScript [WhiteSpace] and [LineTerminator] code points, the set
    [String.prototype.trim] removes.  All of them are in the BMP. *)
Definition is_white_space (c : code_unit) : bool :=
  (  N.eqb c 0x09 || N.eqb c 0x0A || N.eqb c 0x0B || N.eqb c 0x0C
  || N.eqb c 0x0D || N.eqb c 0x20 || N.eqb c 0xA0 || N.eqb c 0x1680
  || (N.leb 0x2000 c && N.leb c 0x200A)
  || N.eqb c 0x2028 || N.eqb c 0x2029 || N.eqb c 0x202F
  || N.eqb c 0x205F || N.eqb c 0x3000 || N.eqb c 0xFEFF)%N%bool.

Fixpoint drop_while (p : code_unit -> bool) (s : jsstring) : jsstring :=
  match s with
  | [] => []
  | c :: s' => if p c then drop_while p s' else s
  end.

Definition drop_while_end (p : code_unit -> bool) (s : jsstring) : jsstring :=
  rev (drop_while p (rev s)).

(** [s.trim()] *)
Definition trim (s : jsstring) : jsstring :=
  drop_while_end is_white_space (drop_while is_white_space s).

(** [s.replace(/\/+$/, '')]: the match, if any, is the whole run of
    slashes that ends the string. *)
Definition strip_trailing_slashes (s : jsstring) : jsstring :=
  drop_while_end is_slash s.

(** [s.replace(/^\/+/, '')] *)
Definition strip_leading_slashes (s : jsstring) : jsstring :=
  drop_while is_slash s.

(** Truthiness of a string: non-empty. *)
Definition truthy (s : jsstring) : bool :=
  match s with [] => false | _ => true end.

End JsString.
Export JsString.

(* ===================================================================== *)
(** ** Numbers *)
(* ===================================================================== *)

Module JsNumber.

(** The values of type [number] the gate can hold or be given: the two
    infinities, NaN, and finite values.  Every finite double is a
    rational, so [Fin] over-approximates the finite doubles; both zeros
    are [Fin] of a rational with numerator 0. *)
Inductive number :=
| NaN
| PosInf
| NegInf
| Fin (q : Q).

Definition of_Z (z : Z) : number := Fin (inject_Z z).

Definition Infinity : number := PosInf.

(** [ToBoolean] on a number: false for NaN and the zeros. *)
Definition truthy (x : number) : bool :=
  match x with
  | NaN => false
  | PosInf | NegInf => true
  | Fin q => negb (Qnum q =? 0)
  end.

(** [a < b] *)
Definition lt (a b : number) : bool :=
  match a, b with
  | NaN, _ | _, NaN => false
  | _, NegInf => false
  | NegInf, _ => true
  | PosInf, _ => false
  | Fin _, PosInf => true
  | Fin p, Fin q => match p ?= q with Lt => true | _ => false end
  end%Q.

(** [a > b] *)
Definition gt (a b : number) : bool := lt b a.

(** [a <= b] *)
Definition le (a b : number) : bool :=
  match a, b with
  | NaN, _ | _, NaN => false
  | NegInf, _ => true
  | _, PosInf => true
  | _, NegInf => false
  | PosInf, _ => false
  | Fin p, Fin q => match p ?= q with Gt => false | _ => true end
  end%Q.

(** [a >= b] *)
Definition ge (a b : number) : bool := le b a.

End JsNumber.

(* ===================================================================== *)
(** ** Values and objects *)
(* ===================================================================== *)

(** User-supplied functions of type [(isLoading: boolean) => void], and
    [AbortController] objects, are identified by a name.  Invoking a
    callback is an observable effect, recorded in the trace; the callback
    itself returns normally and does not call back into the instance. *)
Definition callback := nat.
Definition controller := nat.

Inductive value :=
| VUndefined
| VNull
| VBool (b : bool)
| VNum (n : JsNumber.number)
| VStr (s : jsstring)
| VFun (f : callback)
| VController (c : controller)
| VSignal (c : controller)          (* [c.signal] *)
| VObject (ref : nat).              (* any other object, opaque *)

(** A plain object used as a dictionary: own enumerable string keys. *)
Abbreviation obj := (gmap (list N) value).

(** [o.k] : a missing property reads as [undefined]. *)
Definition prop (o : obj) (k : jsstring) : value :=
  default VUndefined (o !! k).

(** [{...a, ...b}] : the properties of [b] win. *)
Definition spread (a b : obj) : obj := b ∪ a.

(** The one key an ordinary assignment does not store on a plain
    object: [o["__proto__"] = v] reaches the setter inherited from
    [Object.prototype] unless [o] has an own property of that name. *)
Definition proto_key : jsstring := lit "__proto__".

(** [Object.assign(target, source)] on a target that is a plain object.
    Each own property of the source is written by an ordinary
    assignment, so an own key [__proto__] of the source is stored only
    when the target already has that own property.  (Spread and rest
    define properties instead and copy every own key.)  The maps hold the
    own properties of an object; its prototype is not represented. *)
Definition Object_assign (target source : obj) : obj :=
  match target !! proto_key with
  | Some _ => source ∪ target
  | None => delete proto_key source ∪ target
  end.

(** [ToBoolean] *)
Definition truthy (v : value) : bool :=
  match v with
  | VUndefined | VNull => false
  | VBool b => b
  | VNum n => JsNumber.truthy n
  | VStr s => JsString.truthy s
  | VFun _ | VController _ | VSignal _ | VObject _ => true
  end.

(** [v ?? d] *)
Definition nullish_or (v d : value) : value :=
  match v with
  | VUndefined | VNull => d
  | _ => v
  end.

(* ===================================================================== *)
(** ** Errors ([src/errors.ts]) *)
(* ===================================================================== *)

Module Errors.

(** The part of an [AxiosResponse] the code reads. *)
Record AxiosResponse := {
  status : JsNumber.number;
  data : value;
}.

(** An [AxiosError].  [request] and [response] are optional fields of
    the axios type ([request?: any], [response?: AxiosResponse]). *)
Record AxiosError := {
  message : jsstring;
  code : option jsstring;
  request : option obj;
  response : option AxiosResponse;
  config : value;
}.

(** What a [catch] clause can receive. *)
Inductive thrown :=
| AxiosError_ (e : AxiosError)            (* [err instanceof AxiosError] *)
| AuroraInstanceError (msg : jsstring)
| TypeError
| OtherThrown (v : value).

(** Outcome of an expression that may throw. *)
Inductive result (A : Type) :=
| Ok (a : A)
| Throw (t : thrown).
Arguments Ok {A} a.
Arguments Throw {A} t.

Definition bind {A B} (r : result A) (k : A -> result B) : result B :=
  match r with
  | Ok a => k a
  | Throw t => Throw t
  end.

Record AuroraPromiseError := {
  name : jsstring;
  msg : jsstring;
  errorCode : option jsstring;
  requestStatus : value;
  responseStatus : JsNumber.number;
  axiosInstanceConfig : value;
}.

(** [new AuroraPromiseError(axiosError)].  Reading [.status] off an
    absent [request] is a TypeError; [response?.status ?? 500] is
    guarded. *)
Definition new_AuroraPromiseError (axiosError : AxiosError)
  : result AuroraPromiseError :=
  match request axiosError with
  | None => Throw TypeError
  | Some req =>
      Ok {| name := lit "AuroraPromiseError";
            msg := message axiosError;
            errorCode := code axiosError;
            requestStatus := prop req (lit "status");
            responseStatus :=
              match response axiosError with
              | Some r => status r
              | None => JsNumber.of_Z 500
              end;
            axiosInstanceConfig := config axiosError |}
  end.

End Errors.
Export Errors.

Notation "'try!' x := r 'in' k" := (bind r (fun x => k))
  (at level 10, x name, r at level 100, k at level 200).

(* ===================================================================== *)
(** ** The class ([src/Aurora.ts]) *)
(* ===================================================================== *)

Module Aurora.

(** [this.axiosInstance.defaults], the default store.  [params] and
    [baseURL] are optional in axios' configuration type. *)
Record AxiosDefaults := {
  baseURL : option jsstring;
  headers_common : obj;
  params : option obj;
  timeout : option JsNumber.number;
}.

(** The defaults of [axios.create()] (axios 1.x).  The library is
    outside the repository; what matters below is that a fresh instance
    carries default headers of its own and no [params] entry. *)
Definition axios_create : AxiosDefaults :=
  {| baseURL := None;
     headers_common :=
       {[ lit "Accept" := VStr (lit "application/json, text/plain, */*");
          lit "Content-Type" := VUndefined ]};
     params := None;
     timeout := Some (JsNumber.of_Z 0) |}.

(** The fields of an instance.  [aborted] records that [abortAll] has
    aborted the default controller; the controller belongs to the caller
    as well, who may abort it directly, which no field of the instance
    reflects.  Likewise [defaults] is the state of the axios instance as
    this class reads and writes it. *)
Record t := {
  defaults : AxiosDefaults;
  requests_max : JsNumber.number;
  requests_current : Z;
  defaultAbortController : controller;
  aborted : bool;
}.

Definition with_defaults (d : AxiosDefaults) (a : t) : t :=
  {| defaults := d;
     requests_max := requests_max a;
     requests_current := requests_current a;
     defaultAbortController := defaultAbortController a;
     aborted := aborted a |}.

Definition with_max (m : JsNumber.number) (a : t) : t :=
  {| defaults := defaults a;
     requests_max := m;
     requests_current := requests_current a;
     defaultAbortController := defaultAbortController a;
     aborted := aborted a |}.

Definition with_current (c : Z) (a : t) : t :=
  {| defaults := defaults a;
     requests_max := requests_max a;
     requests_current := c;
     defaultAbortController := defaultAbortController a;
     aborted := aborted a |}.

Definition with_headers (h : obj) (d : AxiosDefaults) : AxiosDefaults :=
  {| baseURL := baseURL d; headers_common := h;
     params := params d; timeout := timeout d |}.

Definition with_params (p : option obj) (d : AxiosDefaults) : AxiosDefaults :=
  {| baseURL := baseURL d; headers_common := headers_common d;
     params := p; timeout := timeout d |}.

Definition with_timeout (x : option JsNumber.number) (d : AxiosDefaults)
  : AxiosDefaults :=
  {| baseURL := baseURL d; headers_common := headers_common d;
     params := params d; timeout := x |}.

Definition with_baseURL (u : option jsstring) (d : AxiosDefaults)
  : AxiosDefaults :=
  {| baseURL := u; headers_common := headers_common d;
     params := params d; timeout := timeout d |}.

(** *** setMaxConcurrentRequestsLimit *)

(** [limit && limit > 0 ? limit : Number.POSITIVE_INFINITY];
    [None] is an omitted argument. *)
Definition limit_value (limit : option JsNumber.number) : JsNumber.number :=
  match limit with
  | Some l =>
      if JsNumber.truthy l && JsNumber.gt l (JsNumber.of_Z 0)
      then l else JsNumber.Infinity
  | None => JsNumber.Infinity
  end.

Definition setMaxConcurrentRequestsLimit
    (limit : option JsNumber.number) (a : t) : t :=
  with_max (limit_value limit) a.

(** *** The constructor *)

Record options := {
  url : option jsstring;
  maxConcurrentRequests : option JsNumber.number;
  abortController : option controller;
  axiosInstance : option AxiosDefaults;
}.

(** [new Aurora()] *)
Definition no_options : options :=
  {| url := None; maxConcurrentRequests := None;
     abortController := None; axiosInstance := None |}.

Definition new (o : options) : t :=
  let url := default [] (url o) in
  let maxConcurrentRequests :=
    default JsNumber.Infinity (maxConcurrentRequests o) in
  let abortController := default 0%nat (abortController o) in
  let axiosInstance := default axios_create (axiosInstance o) in
  setMaxConcurrentRequestsLimit (Some maxConcurrentRequests)
    {| defaults := with_baseURL (Some url) axiosInstance;
       requests_max := JsNumber.of_Z 0;
       requests_current := 0;
       defaultAbortController := abortController;
       aborted := false |}.

(** *** normalizeUrl *)

Definition normalizeUrl (baseURL endpoint : jsstring) : result jsstring :=
  if negb (JsString.truthy (trim baseURL))
     && negb (JsString.truthy (trim endpoint))
  then Throw (AuroraInstanceError (lit "URL cannot be null"))
  else
    let cleanBaseURL := strip_trailing_slashes baseURL in
    let cleanEndpoint := strip_leading_slashes endpoint in
    Ok (if JsString.truthy cleanBaseURL
        then cleanBaseURL ++ [slash] ++ cleanEndpoint
        else cleanEndpoint).

(** *** The default store *)

Definition addHeaders (headers : obj) (a : t) : t :=
  let d := defaults a in
  with_defaults
    (with_headers (Object_assign (headers_common d) headers) d) a.

Definition removeHeaders (headerNames : option (list jsstring)) (a : t) : t :=
  let d := defaults a in
  match headerNames with
  | None => with_defaults (with_headers ∅ d) a
  | Some names =>
      with_defaults
        (with_headers
           (fold_left (fun common header => delete header common)
                      names (headers_common d)) d) a
  end.

(** [Object.assign(this.axiosInstance.defaults.params, params)]: the
    target must be an object. *)
Definition addParams (ps : obj) (a : t) : result t :=
  let d := defaults a in
  match params d with
  | None => Throw TypeError
  | Some target =>
      Ok (with_defaults (with_params (Some (Object_assign target ps)) d) a)
  end.

(** [delete this.axiosInstance.defaults.params[param]] *)
Definition delete_param (param : jsstring) (a : t) : result t :=
  let d := defaults a in
  match params d with
  | None => Throw TypeError
  | Some target =>
      Ok (with_defaults (with_params (Some (delete param target)) d) a)
  end.

Definition removeParams (paramNames : option (list jsstring)) (a : t)
  : result t :=
  let a1 :=
    match paramNames with
    | None => with_defaults (with_params (Some ∅) (defaults a)) a
    | Some _ => a
    end in
  match paramNames with
  | None => Ok a1
  | Some names =>
      fold_left (fun acc param => try! a' := acc in delete_param param a')
                names (Ok a1)
  end.

Definition setTimeout (x : JsNumber.number) (a : t) : t :=
  with_defaults (with_timeout (Some x) (defaults a)) a.

Definition removeTimeout (a : t) : t :=
  with_defaults (with_timeout None (defaults a)) a.

Definition abortAll (a : t) : t :=
  {| defaults := defaults a;
     requests_max := requests_max a;
     requests_current := requests_current a;
     defaultAbortController := defaultAbortController a;
     aborted := true |}.

(** *** call

    [call] is an [async] function with a single [await], on the
    transport's promise.  Its body runs in two synchronous pieces: from
    entry to the [await] ([call]), and from the settlement of the
    transport's promise to the [return] ([resume]).  Between the two the
    invocation is a suspended frame holding its local variables. *)

(** Observable effects, tagged with the invocation that performs them. *)
Inductive effect :=
| Acquire (id : nat)                         (* [this.requests.current++] *)
| Release (id : nat)                         (* [this.requests.current--] *)
| Loading (id : nat) (f : callback) (isLoading : bool)
                                             (* [loadingCallback(isLoading)] *)
| Dispatch (id : nat) (store : AxiosDefaults) (request : obj).
                                             (* [this.axiosInstance({...})] *)

(** The local variables of a suspended invocation. *)
Record frame := {
  fr_id : nat;
  fr_method : jsstring;
  fr_abortController : value;
  fr_loadingCallback : value;
  fr_options : obj;
}.

Module Handle.
(** The object [call] returns.  [method] and [options] are the
    variables the [recall] arrow function closes over. *)
Record t := {
  response : option AxiosResponse;
  error : option AuroraPromiseError;
  hasError : bool;
  method : jsstring;
  options : obj;
}.
End Handle.

(** How the promise returned by [call] settles. *)
Inductive completion :=
| Resolved (h : Handle.t)
| Rejected (t : thrown).

Inductive started :=
| Suspended (id : nat)
| Settled (c : completion).

(** One instance, the invocations of [call] suspended on it, and the
    effects performed so far, oldest first. *)
Record world := {
  instance : t;
  suspended : list frame;
  fresh : nat;
  trace : list effect;
}.

Definition boot (a : t) : world :=
  {| instance := a; suspended := []; fresh := 0%nat; trace := [] |}.

Definition with_instance (a : t) (w : world) : world :=
  {| instance := a; suspended := suspended w;
     fresh := fresh w; trace := trace w |}.

Definition emit (e : effect) (w : world) : world :=
  {| instance := instance w; suspended := suspended w;
     fresh := fresh w; trace := trace w ++ [e] |}.

Definition suspend (fr : frame) (w : world) : world :=
  {| instance := instance w; suspended := suspended w ++ [fr];
     fresh := fresh w; trace := trace w |}.

(** [this.requests.current++] on behalf of a new invocation. *)
Definition acquire (w : world) : world :=
  let a := instance w in
  {| instance := with_current (requests_current a + 1) a;
     suspended := suspended w;
     fresh := S (fresh w);
     trace := trace w ++ [Acquire (fresh w)] |}.

(** [this.requests.current--] *)
Definition release (id : nat) (w : world) : world :=
  let a := instance w in
  emit (Release id)
       (with_instance (with_current (requests_current a - 1) a) w).

(** [if (loadingCallback) loadingCallback(isLoading)].  Calling a
    truthy value that is not a function is a TypeError; a function is
    taken to return normally. *)
Definition notify (id : nat) (loadingCallback : value) (isLoading : bool)
    (w : world) : world * option thrown :=
  if truthy loadingCallback then
    match loadingCallback with
    | VFun f => (emit (Loading id f isLoading) w, None)
    | _ => (w, Some TypeError)
    end
  else (w, None).

(** [abortController?.signal] *)
Definition signal_of (abortController : value) : value :=
  match abortController with
  | VController c => VSignal c
  | _ => VUndefined
  end.

(** [options.endpoint ?? ''], as the string [normalizeUrl] expects;
    the string methods are missing on any other value. *)
Definition endpoint_of (options : obj) : result jsstring :=
  match nullish_or (prop options (lit "endpoint")) (VStr []) with
  | VStr s => Ok s
  | _ => Throw TypeError
  end.

(** [this.normalizeUrl(this.axiosInstance.defaults.baseURL ?? "", options.endpoint ?? '')] *)
Definition resolve (options : obj) (a : t) : result jsstring :=
  try! endpoint := endpoint_of options in
  normalizeUrl (default [] (baseURL (defaults a))) endpoint.

(** The [try] block up to the [await]: it either throws or hands the
    request object to the transport. *)
Definition try_block (fr : frame) (w : world) : world * result obj :=
  match resolve (fr_options fr) (instance w) with
  | Throw t => (w, Throw t)
  | Ok url =>
      match notify (fr_id fr) (fr_loadingCallback fr) true w with
      | (w1, Some t) => (w1, Throw t)
      | (w1, None) =>
          let request :=
            <[lit "signal" := signal_of (fr_abortController fr)]>
              (<[lit "url" := VStr url]> (fr_options fr)) in
          (emit (Dispatch (fr_id fr) (defaults (instance w1)) request) w1,
           Ok request)
      end
  end.

(** The [catch] clause: what is left of the outcome of the [try]
    block once the handler has run. *)
Definition catch_clause (r : result AxiosResponse)
  : result (option AxiosResponse * option AuroraPromiseError * bool) :=
  match r with
  | Ok response => Ok (Some response, None, false)
  | Throw (AxiosError_ err) =>
      try! error := new_AuroraPromiseError err in
      Ok (None, Some error, true)
  | Throw err => Throw err
  end.

(** [catch], [finally] and [return]. A throw from the [finally] block
    replaces the pending outcome. *)
Definition resume (fr : frame) (r : result AxiosResponse) (w : world)
  : world * completion :=
  let caught := catch_clause r in
  let w1 := release (fr_id fr) w in
  match notify (fr_id fr) (fr_loadingCallback fr) false w1 with
  | (w2, Some t) => (w2, Rejected t)
  | (w2, None) =>
      (w2,
       match caught with
       | Throw t => Rejected t
       | Ok (response, error, hasError) =>
           Resolved {| Handle.response := response;
                       Handle.error := error;
                       Handle.hasError := hasError;
                       Handle.method := fr_method fr;
                       Handle.options := fr_options fr |}
       end)
  end.

(** The gate test, [this.requests.current >= this.requests.max]. *)
Definition limit_reached (a : t) : bool :=
  JsNumber.ge (JsNumber.of_Z (requests_current a)) (requests_max a).

(** Parameter destructuring of
    [{ abortController = this.defaultAbortController, loadingCallback, ...options }]. *)
Definition bind_parameters (a : t) (id : nat) (method : jsstring) (o : obj)
  : frame :=
  {| fr_id := id;
     fr_method := method;
     fr_abortController :=
       match prop o (lit "abortController") with
       | VUndefined => VController (defaultAbortController a)
       | v => v
       end;
     fr_loadingCallback := prop o (lit "loadingCallback");
     fr_options :=
       delete (lit "loadingCallback") (delete (lit "abortController") o) |}.

(** The body of [call] once the gate has been passed and the counter
    incremented: the [try] block runs to the [await], or throws and is
    followed at once by [catch] and [finally]. *)
Definition admitted (fr : frame) (w : world) : world * started :=
  match try_block fr w with
  | (w1, Ok _) => (suspend fr w1, Suspended (fr_id fr))
  | (w1, Throw t) =>
      let (w2, c) := resume fr (Throw t) w1 in (w2, Settled c)
  end.

Definition call (method : jsstring) (o : obj) (w : world)
  : world * started :=
  let fr := bind_parameters (instance w) (fresh w) method o in
  if limit_reached (instance w) then
    (w, Settled (Rejected (AuroraInstanceError (lit "Request limit exceeded"))))
  else
    admitted fr (acquire w).

(** [recall]: [(customOptions = {}) => this.call(method, {...options, ...customOptions})] *)
Definition recall (h : Handle.t) (customOptions : option obj) (w : world)
  : world * started :=
  call (Handle.method h)
       (spread (Handle.options h) (default ∅ customOptions)) w.

(** [post], [get], [delete], [put] *)
Module Alias.
Definition post (o : obj) := call (lit "post") o.
Definition get (o : obj) := call (lit "get") o.
Definition put (o : obj) := call (lit "put") o.
Definition delete (o : obj) := call (lit "delete") o.
End Alias.

(** The transport's promise of invocation [id] settles. *)
Fixpoint take (id : nat) (l : list frame) : option (frame * list frame) :=
  match l with
  | [] => None
  | fr :: l' =>
      if Nat.eqb (fr_id fr) id then Some (fr, l')
      else match take id l' with
           | Some (x, rest) => Some (x, fr :: rest)
           | None => None
           end
  end.

Definition settle (id : nat) (r : result AxiosResponse) (w : world)
  : world * option completion :=
  match take id (suspended w) with
  | None => (w, None)
  | Some (fr, rest) =>
      let w1 := {| instance := instance w; suspended := rest;
                   fresh := fresh w; trace := trace w |} in
      let (w2, c) := resume fr r w1 in (w2, Some c)
  end.

(** *** Histories of one instance *)

Inductive event :=
| Call (method : jsstring) (options : obj)
| Settle (id : nat) (r : result AxiosResponse)
| SetMaxConcurrentRequestsLimit (limit : option JsNumber.number)
| AddHeaders (headers : obj)
| RemoveHeaders (headerNames : option (list jsstring))
| AddParams (ps : obj)
| RemoveParams (paramNames : option (list jsstring))
| SetTimeout (x : JsNumber.number)
| RemoveTimeout
| AbortAll.

(** A method that throws leaves the fields as they were. *)
Definition or_unchanged (a : t) (r : result t) : t :=
  match r with Ok a' => a' | Throw _ => a end.

Definition step (w : world) (e : event) : world :=
  let a := instance w in
  match e with
  | Call method o => fst (call method o w)
  | Settle id r => fst (settle id r w)
  | SetMaxConcurrentRequestsLimit limit =>
      with_instance (setMaxConcurrentRequestsLimit limit a) w
  | AddHeaders h => with_instance (addHeaders h a) w
  | RemoveHeaders names => with_instance (removeHeaders names a) w
  | AddParams ps => with_instance (or_unchanged a (addParams ps a)) w
  | RemoveParams names =>
      with_instance (or_unchanged a (removeParams names a)) w
  | SetTimeout x => with_instance (setTimeout x a) w
  | RemoveTimeout => with_instance (removeTimeout a) w
  | AbortAll => with_instance (abortAll a) w
  end.

Definition run (w : world) (es : list event) : world :=
  fold_left step es w.

End Aurora.

Import Aurora.

(* ===================================================================== *)
(** ** Vocabulary of the statements *)
(* ===================================================================== *)

(** The rule the specification gives for the limit: a positive finite
    argument is kept, a zero, negative or omitted one means unbounded.
    The last two constructors are the arguments the rule does not name. *)
Inductive limit_rule : option JsNumber.number -> JsNumber.number -> Prop :=
| limit_positive q :
    (0 < q)%Q -> limit_rule (Some (JsNumber.Fin q)) (JsNumber.Fin q)
| limit_zero_or_negative q :
    (q <= 0)%Q -> limit_rule (Some (JsNumber.Fin q)) JsNumber.Infinity
| limit_negative_infinity :
    limit_rule (Some JsNumber.NegInf) JsNumber.Infinity
| limit_absent :
    limit_rule None JsNumber.Infinity
| limit_positive_infinity :
    limit_rule (Some JsNumber.PosInf) JsNumber.Infinity
| limit_not_a_number :
    limit_rule (Some JsNumber.NaN) JsNumber.Infinity.

(** The default headers and parameters of an instance. *)
Definition default_headers (a : Aurora.t) : obj :=
  headers_common (defaults a).

Definition default_params (a : Aurora.t) : option obj :=
  params (defaults a).

(** An instance that differs from [a] in its default headers only. *)
Definition having_headers (h : obj) (a : Aurora.t) : Aurora.t :=
  with_defaults (with_headers h (defaults a)) a.

(** The invocation an effect belongs to, and the effects of one
    invocation in a trace, in order. *)
Definition effect_id (e : effect) : nat :=
  match e with
  | Acquire id | Release id | Loading id _ _ | Dispatch id _ _ => id
  end.

Definition effects_of (id : nat) (tr : list effect) : list effect :=
  List.filter (fun e => Nat.eqb (effect_id e) id) tr.

(** The notifications of a loading callback: one if the option holds a
    function, none if it is absent. *)
Definition loading (id : nat) (loadingCallback : value) (isLoading : bool)
  : list effect :=
  match loadingCallback with
  | VFun f => [Loading id f isLoading]
  | _ => []
  end.

(** The option is absent (or falsy), or a function. *)
Definition callable_or_absent (loadingCallback : value) : Prop :=
  truthy loadingCallback = true -> exists f, loadingCallback = VFun f.

(** The effects of one invocation of [call], from nothing to complete.
    An invocation that is not admitted has none; an admitted one
    increments the counter once, and either reaches the transport and
    waits, or is over, having decremented the counter once. *)
Inductive lifecycle (id : nat) : list effect -> Prop :=
| not_admitted :
    lifecycle id []
| in_flight lc store request :
    lifecycle id
      ([Acquire id] ++ loading id lc true ++ [Dispatch id store request])
| settled lc store request :
    lifecycle id
      ([Acquire id] ++ loading id lc true ++ [Dispatch id store request]
       ++ [Release id] ++ loading id lc false)
| threw_before_dispatch lc :
    lifecycle id ([Acquire id] ++ [Release id] ++ loading id lc false).

Definition count_effect (p : effect -> bool) (tr : list effect) : nat :=
  List.length (List.filter p tr).

Definition is_acquire (id : nat) (e : effect) : bool :=
  match e with Acquire i => Nat.eqb i id | _ => false end.

Definition is_release (id : nat) (e : effect) : bool :=
  match e with Release i => Nat.eqb i id | _ => false end.

Definition is_loading (id : nat) (isLoading : bool) (e : effect) : bool :=
  match e with
  | Loading i _ b => Nat.eqb i id && Bool.eqb b isLoading
  | _ => false
  end.

Definition is_dispatch (id : nat) (e : effect) : bool :=
  match e with Dispatch i _ _ => Nat.eqb i id | _ => false end.

(** A limit that is a whole number, or none. *)
Definition whole (limit : option JsNumber.number) : Prop :=
  match limit with
  | Some (JsNumber.Fin q) => exists z : Z, q = inject_Z z
  | _ => True
  end.

Definition changes_limit (e : event) : bool :=
  match e with SetMaxConcurrentRequestsLimit _ => true | _ => false end.

(** [current <= max] *)
Definition within_limit (a : Aurora.t) : Prop :=
  JsNumber.le (JsNumber.of_Z (requests_current a)) (requests_max a) = true.

(** [max] is unbounded or a whole number. *)
Definition whole_max (a : Aurora.t) : Prop :=
  requests_max a = JsNumber.PosInf \/
  exists z : Z, requests_max a = JsNumber.of_Z z.

(** The identifiers of the suspended invocations. *)
Definition in_flight_ids (w : world) : list nat :=
  List.map fr_id (suspended w).

(** Sample data of the examples below. *)
Definition api : Aurora.options :=
  {| url := Some (lit "https://api.x.com");
     maxConcurrentRequests := None;
     abortController := None;
     axiosInstance := None |}.

Definition limited (limit : JsNumber.number) : Aurora.options :=
  {| url := Some (lit "https://api.x.com");
     maxConcurrentRequests := Some limit;
     abortController := None;
     axiosInstance := None |}.

Definition items : obj := {[ lit "endpoint" := VStr (lit "/v1/items") ]}.

Definition ok_response : AxiosResponse :=
  {| status := JsNumber.of_Z 200; data := VObject 1 |}.

(** The error axios raises for a request whose signal is already
    aborted: it is created before any request object exists. *)
Definition canceled : AxiosError :=
  {| message := lit "canceled";
     code := Some (lit "ERR_CANCELED");
     request := None;
     response := None;
     config := VObject 0 |}.

(** The default export of [index.ts]: [const aurora = new Aurora()]. *)
Definition aurora : Aurora.t := Aurora.new no_options.

(** [err instanceof AxiosError] *)
Definition is_axios_error (t : thrown) : bool :=
  match t with AxiosError_ _ => true | _ => false end.

(** [max] is unbounded or a positive number. *)
Definition max_positive (a : Aurora.t) : Prop :=
  requests_max a = JsNumber.PosInf \/
  exists q, requests_max a = JsNumber.Fin q /\ (0 < q)%Q.

(** Events that invoke [call] or resume an invocation. *)
Definition is_request (e : event) : bool :=
  match e with Call _ _ | Settle _ _ => true | _ => false end.

(** The default timeout left by the [setTimeout] and [removeTimeout]
    events of a history. *)
Definition timeout_after (es : list event) (x : option JsNumber.number)
  : option JsNumber.number :=
  fold_left (fun x e =>
               match e with
               | SetTimeout y => Some y
               | RemoveTimeout => None
               | _ => x
               end) es x.

Definition is_abort (e : event) : bool :=
  match e with AbortAll => true | _ => false end.

(** The keys [call] takes out of, or writes into, the request. *)
Definition reserved_key (k : jsstring) : Prop :=
  k = lit "url" \/ k = lit "signal" \/
  k = lit "abortController" \/ k = lit "loadingCallback".

(** The effects of an invocation that waits for the transport, and of
    one that is over. *)
Definition waiting (fr : frame) (tr : list effect) : Prop :=
  exists store request,
    effects_of (fr_id fr) tr
    = [Acquire (fr_id fr)]
        ++ loading (fr_id fr) (fr_loadingCallback fr) true
        ++ [Dispatch (fr_id fr) store request].

Definition over (id : nat) (tr : list effect) : Prop :=
  exists lc,
    (exists store request,
        effects_of id tr
        = [Acquire id] ++ loading id lc true ++ [Dispatch id store request]
            ++ [Release id] ++ loading id lc false)
    \/ effects_of id tr = [Acquire id] ++ [Release id] ++ loading id lc false.

(** What holds of an instance and its suspended invocations throughout
    every history. *)
Record consistent (w : world) : Prop := {
  counted :
    requests_current (instance w) = Z.of_nat (List.length (suspended w));
  allocated :
    forall fr, fr ∈ suspended w -> (fr_id fr < fresh w)%nat;
  distinct :
    NoDup (in_flight_ids w);
  suspended_waiting :
    forall fr, fr ∈ suspended w -> waiting fr (trace w);
  others_over :
    forall id, (id < fresh w)%nat -> id ∉ in_flight_ids w -> over id (trace w);
  tagged :
    forall e, e ∈ trace w -> (effect_id e < fresh w)%nat;
}.

(* ===================================================================== *)
(** ** The string operations *)
(* ===================================================================== *)

Section DropWhile.

Variable p : code_unit -> bool.

Lemma drop_while_split (s : jsstring) :
  exists pre, s = pre ++ drop_while p s /\ forallb p pre = true.
Proof.
  induction s as [|c s [pre [E F]]]; simpl.
  - exists []. split; reflexivity.
  - destruct (p c) eqn:Hc.
    + exists (c :: pre). simpl. rewrite Hc, F. split; [f_equal; exact E | reflexivity].
    + exists []. split; reflexivity.
Qed.

Lemma drop_while_head (s : jsstring) c r :
  drop_while p s = c :: r -> p c = false.
Proof.
  induction s as [|d s IH]; simpl; [discriminate|].
  destruct (p d) eqn:Hd; [exact IH|].
  intros [= -> _]. exact Hd.
Qed.

Lemma drop_while_all (s : jsstring) :
  forallb p s = true -> drop_while p s = [].
Proof.
  induction s as [|c s IH]; simpl; [reflexivity|].
  destruct (p c); simpl; [exact IH | discriminate].
Qed.

Lemma drop_while_nil (s : jsstring) :
  drop_while p s = [] -> forallb p s = true.
Proof.
  induction s as [|c s IH]; simpl; [reflexivity|].
  destruct (p c); simpl; [exact IH | discriminate].
Qed.

Lemma forallb_rev (s : jsstring) : forallb p (rev s) = forallb p s.
Proof.
  induction s as [|c s IH]; simpl; [reflexivity|].
  rewrite forallb_app, IH. simpl. rewrite andb_true_r. apply andb_comm.
Qed.

Lemma drop_while_end_split (s : jsstring) :
  exists post, s = drop_while_end p s ++ post /\ forallb p post = true.
Proof.
  unfold drop_while_end.
  destruct (drop_while_split (rev s)) as [pre [E F]].
  exists (rev pre). split.
  - rewrite <- rev_app_distr, <- E. symmetry. apply rev_involutive.
  - rewrite forallb_rev. exact F.
Qed.

Lemma drop_while_end_last (s r : jsstring) c :
  drop_while_end p s = r ++ [c] -> p c = false.
Proof.
  unfold drop_while_end. intros E.
  apply (f_equal (@rev _)) in E.
  rewrite rev_involutive, rev_app_distr in E. simpl in E.
  exact (drop_while_head _ _ _ E).
Qed.

End DropWhile.

Lemma is_slash_true c : is_slash c = true -> c = slash.
Proof. unfold is_slash. apply N.eqb_eq. Qed.

Lemma all_slashes (s : jsstring) :
  forallb is_slash s = true -> s = repeat slash (List.length s).
Proof.
  induction s as [|c s IH]; simpl; [reflexivity|].
  intros H. apply andb_true_iff in H as [Hc Hs].
  rewrite (is_slash_true _ Hc). f_equal. exact (IH Hs).
Qed.

(** [s.trim()] is empty exactly when [s] consists of white space. *)
Lemma trim_empty (s : jsstring) :
  JsString.truthy (trim s) = negb (forallb is_white_space s).
Proof.
  unfold trim, drop_while_end.
  destruct (forallb is_white_space s) eqn:A.
  - rewrite (drop_while_all _ _ A). reflexivity.
  - simpl.
    destruct (drop_while is_white_space s) as [|c r] eqn:D.
    + apply drop_while_nil in D. congruence.
    + pose proof (drop_while_head _ _ _ _ D) as Hc.
      destruct (drop_while is_white_space (rev (c :: r))) as [|d q] eqn:D2.
      * apply drop_while_nil in D2. rewrite forallb_rev in D2.
        simpl in D2. rewrite Hc in D2. discriminate.
      * destruct (rev (d :: q)) eqn:R; [|reflexivity].
        apply (f_equal (@List.length _)) in R. rewrite length_rev in R.
        discriminate.
Qed.

Lemma truthy_nil (s : jsstring) : JsString.truthy s = false <-> s = [].
Proof. destruct s; simpl; split; congruence. Qed.

(* ===================================================================== *)
(** ** normalizeUrl *)
(* ===================================================================== *)

(** C3.  For all strings [base] and [endpoint]: the cleaned base is
    [base] without its trailing slashes, the cleaned endpoint is
    [endpoint] without its leading slashes; [normalizeUrl] throws
    [AuroraInstanceError("URL cannot be null")] when both trimmed inputs
    are empty, returns the cleaned endpoint alone when the cleaned base
    is empty, and the cleaned base, a slash and the cleaned endpoint
    otherwise.  The three examples of the specification evaluate as
    stated. *)
Theorem normalizeUrl_contract :
  (forall base endpoint : jsstring,
     let cleanBase := strip_trailing_slashes base in
     let cleanEndpoint := strip_leading_slashes endpoint in
     (exists n, base = cleanBase ++ repeat slash n) /\
     (forall r, cleanBase <> r ++ [slash]) /\
     (exists n, endpoint = repeat slash n ++ cleanEndpoint) /\
     (forall r, cleanEndpoint <> slash :: r) /\
     normalizeUrl base endpoint =
       if decide (trim base = [] /\ trim endpoint = [])
       then Throw (AuroraInstanceError (lit "URL cannot be null"))
       else if decide (cleanBase = [])
            then Ok cleanEndpoint
            else Ok (cleanBase ++ lit "/" ++ cleanEndpoint))
  /\ normalizeUrl (lit "https://api.x.com/") (lit "/v1/items")
     = Ok (lit "https://api.x.com/v1/items")
  /\ normalizeUrl (lit "") (lit "")
     = Throw (AuroraInstanceError (lit "URL cannot be null"))
  /\ normalizeUrl (lit "") (lit "v1/items") = Ok (lit "v1/items").
Proof.
  split; [|repeat split; reflexivity].
  intros base endpoint cleanBase cleanEndpoint.
  repeat split.
  - destruct (drop_while_end_split is_slash base) as [post [E F]].
    exists (List.length post). rewrite <- (all_slashes _ F). exact E.
  - intros r E. apply drop_while_end_last in E. discriminate.
  - destruct (drop_while_split is_slash endpoint) as [pre [E F]].
    exists (List.length pre). rewrite <- (all_slashes _ F). exact E.
  - intros r E. apply drop_while_head in E. discriminate.
  - unfold normalizeUrl. fold cleanBase cleanEndpoint.
    change (lit "/") with [slash].
    destruct (JsString.truthy (trim base)) eqn:TB;
      destruct (JsString.truthy (trim endpoint)) eqn:TE; simpl;
      repeat case_decide;
      try reflexivity;
      repeat match goal with
        | H : _ /\ _ |- _ => destruct H
        | H : JsString.truthy _ = false |- _ => apply truthy_nil in H
        | H : ?s = [] |- _ => rewrite H in *
        end;
      try discriminate; try tauto.
    all: destruct cleanBase; simpl; congruence.
Qed.

(* ===================================================================== *)
(** ** The limit *)
(* ===================================================================== *)

Lemma limit_value_rule limit : limit_rule limit (limit_value limit).
Proof.
  destruct limit as [[| | |q]|]; simpl; try constructor.
  unfold JsNumber.gt, JsNumber.lt, JsNumber.of_Z.
  destruct (inject_Z 0 ?= q)%Q eqn:C.
  - rewrite andb_false_r. apply limit_zero_or_negative.
    apply Qeq_alt in C. rewrite <- C. apply Qle_refl.
  - destruct (Qnum q =? 0) eqn:Z0; simpl.
    + apply Z.eqb_eq in Z0. apply Qlt_alt in C.
      unfold Qlt in C. simpl in C. lia.
    + apply limit_positive. apply Qlt_alt in C. exact C.
  - rewrite andb_false_r. apply limit_zero_or_negative.
    apply Qgt_alt in C. apply Qlt_le_weak. exact C.
Qed.

(** C9.  [setMaxConcurrentRequestsLimit] sets [max] to a positive finite
    argument, and to unbounded when the argument is zero, negative or
    omitted; it touches nothing else. *)
Theorem setMaxConcurrentRequestsLimit_contract :
  forall (limit : option JsNumber.number) (a : Aurora.t),
    let a' := setMaxConcurrentRequestsLimit limit a in
    limit_rule limit (requests_max a') /\
    requests_current a' = requests_current a /\
    defaults a' = defaults a.
Proof.
  intros limit a a'. repeat split. apply limit_value_rule.
Qed.

(* ===================================================================== *)
(** ** The default store *)
(* ===================================================================== *)

Lemma lookup_fold_delete (names : list jsstring) (m : obj) (k : jsstring) :
  fold_left (fun common header => delete header common) names m !! k
  = if decide (k ∈ names) then None else m !! k.
Proof.
  revert m. induction names as [|x names IH]; intros m; simpl.
  - destruct (decide (k ∈ ([] : list jsstring))) as [H|_];
      [set_solver | reflexivity].
  - rewrite IH.
    destruct (decide (k ∈ names)) as [H|H];
      destruct (decide (k ∈ x :: names)) as [H'|H']; try reflexivity.
    + set_solver.
    + assert (k = x) as -> by set_solver. apply lookup_delete_eq.
    + rewrite lookup_delete_ne; [reflexivity | set_solver].
Qed.

Lemma lookup_assign (target source : obj) (k : jsstring) :
  Object_assign target source !! k
  = match source !! k with
    | Some v =>
        if decide (k = proto_key /\ target !! proto_key = None)
        then None else Some v
    | None => target !! k
    end.
Proof.
  unfold Object_assign.
  destruct (target !! proto_key) as [p|] eqn:P.
  - rewrite lookup_union.
    destruct (source !! k) as [v|] eqn:S.
    + rewrite decide_False by (intros [_ H]; discriminate).
      destruct (target !! k); reflexivity.
    + destruct (target !! k); reflexivity.
  - rewrite lookup_union.
    destruct (decide (k = proto_key)) as [->|Hk].
    + rewrite lookup_delete_eq, P.
      destruct (source !! proto_key); [|reflexivity].
      rewrite decide_True by (split; reflexivity). reflexivity.
    + rewrite lookup_delete_ne by congruence.
      destruct (source !! k) as [v|] eqn:S.
      * rewrite decide_False by (intros [H _]; contradiction).
        destruct (target !! k); reflexivity.
      * destruct (target !! k); reflexivity.
Qed.

Lemma lookup_assign_plain (target source : obj) (k : jsstring) :
  k <> proto_key ->
  Object_assign target source !! k
  = match source !! k with Some v => Some v | None => target !! k end.
Proof.
  intros Hk. rewrite lookup_assign.
  destruct (source !! k); [|reflexivity].
  rewrite decide_False by (intros [H _]; contradiction). reflexivity.
Qed.

(** C7, as the code has it.  [addHeaders] overwrites or inserts the
    keys of its argument and keeps every other default header, except
    that a key [__proto__] is stored only if the default headers already
    have one of their own; [removeHeaders()] leaves no default header;
    [removeHeaders(names)] removes the named keys and only those.
    [addHeaders({A:"1"})], [addHeaders({A:"2", B:"3"})],
    [removeHeaders(["A"])] leave the default headers there were, without
    [A] and with [B:"3"]: that is [{B:"3"}] when there were none. *)
Theorem default_headers_contract :
  forall a : Aurora.t,
    (forall (headers : obj) (k : jsstring),
        default_headers (addHeaders headers a) !! k
        = match headers !! k, default_headers a !! proto_key with
          | Some v, None => if decide (k = proto_key) then None else Some v
          | Some v, Some _ => Some v
          | None, _ => default_headers a !! k
          end) /\
    default_headers (removeHeaders None a) = ∅ /\
    (forall (names : list jsstring) (k : jsstring),
        default_headers (removeHeaders (Some names) a) !! k
        = if decide (k ∈ names) then None else default_headers a !! k) /\
    default_headers
      (removeHeaders (Some [lit "A"])
         (addHeaders {[ lit "A" := VStr (lit "2"); lit "B" := VStr (lit "3") ]}
            (addHeaders {[ lit "A" := VStr (lit "1") ]}
               (having_headers ∅ a))))
    = {[ lit "B" := VStr (lit "3") ]} /\
    default_headers
      (removeHeaders (Some [lit "A"])
         (addHeaders {[ lit "A" := VStr (lit "2"); lit "B" := VStr (lit "3") ]}
            (addHeaders {[ lit "A" := VStr (lit "1") ]} a)))
    = <[ lit "B" := VStr (lit "3") ]> (delete (lit "A") (default_headers a)).
Proof.
  assert (E : forall h : obj,
    fold_left (fun common header => delete header common) [lit "A"]
      (Object_assign
         (Object_assign h {[ lit "A" := VStr (lit "1") ]})
         {[ lit "A" := VStr (lit "2"); lit "B" := VStr (lit "3") ]})
    = <[ lit "B" := VStr (lit "3") ]> (delete (lit "A") h)).
  { intros h. apply map_eq. intros k. cbn [fold_left].
    destruct (decide (k = lit "A")) as [->|HA].
    - rewrite lookup_delete_eq, lookup_insert_ne by discriminate.
      rewrite lookup_delete_eq. reflexivity.
    - rewrite lookup_delete_ne by congruence.
      destruct (decide (k = lit "B")) as [->|HB].
      + rewrite lookup_insert_eq.
        rewrite lookup_assign_plain by discriminate. reflexivity.
      + rewrite lookup_insert_ne, lookup_delete_ne by congruence.
        destruct (decide (k = proto_key)) as [->|HP].
        * rewrite !lookup_assign. reflexivity.
        * rewrite !lookup_assign_plain by exact HP.
          rewrite lookup_insert_ne, !lookup_singleton_ne by congruence.
          reflexivity. }
  intros a. split; [|split; [|split; [|split]]].
  - intros headers k.
    change (default_headers (addHeaders headers a))
      with (Object_assign (default_headers a) headers).
    rewrite lookup_assign.
    destruct (headers !! k); [|reflexivity].
    destruct (default_headers a !! proto_key);
      repeat case_decide; try reflexivity; try tauto; try congruence.
    all: exfalso; intuition congruence.
  - reflexivity.
  - intros names k. apply lookup_fold_delete.
  - unfold default_headers, removeHeaders, addHeaders, having_headers.
    cbn [defaults headers_common with_defaults with_headers].
    rewrite E, delete_empty. reflexivity.
  - unfold default_headers, removeHeaders, addHeaders.
    cbn [defaults headers_common with_defaults with_headers].
    apply E.
Qed.

(** C7 as stated fails.  On a fresh instance the three calls of the
    example leave the headers axios starts with beside [B:"3"]; and a
    map with an own key [__proto__] is not merged in: the key is not
    stored. *)
Lemma headers_example_on_fresh_instance :
  (let a := removeHeaders (Some [lit "A"])
              (addHeaders
                 {[ lit "A" := VStr (lit "2"); lit "B" := VStr (lit "3") ]}
                 (addHeaders {[ lit "A" := VStr (lit "1") ]} aurora)) in
   default_headers a !! lit "Accept"
   = Some (VStr (lit "application/json, text/plain, */*")) /\
   default_headers a !! lit "B" = Some (VStr (lit "3")) /\
   default_headers a <> {[ lit "B" := VStr (lit "3") ]}) /\
  (let headers := {[ proto_key := VStr (lit "x") ]} : obj in
   headers !! proto_key = Some (VStr (lit "x")) /\
   default_headers (addHeaders headers aurora) !! proto_key = None).
Proof.
  split; [|split; vm_compute; reflexivity].
  split; [vm_compute; reflexivity|].
  split; [vm_compute; reflexivity|].
  intros H.
  apply (f_equal (fun m : obj => m !! lit "Accept")) in H.
  vm_compute in H. discriminate.
Qed.



Lemma removeParams_all (a : Aurora.t) :
  exists a', removeParams None a = Ok a' /\ default_params a' = Some ∅.
Proof. eexists. split; reflexivity. Qed.

(** C8, at the input where the code departs from it.  A freshly
    constructed instance has no default-parameter object; [addParams]
    then throws a TypeError instead of merging, and so does
    [removeParams] with a name to remove. *)
Theorem addParams_fresh_instance :
  let a := Aurora.new no_options in
  default_params a = None /\
  addParams {[ lit "page" := VNum (JsNumber.of_Z 1) ]} a = Throw TypeError /\
  removeParams (Some [lit "lang"]) a = Throw TypeError.
Proof. repeat split. Qed.

(* ===================================================================== *)
(** ** One invocation of [call] *)
(* ===================================================================== *)

Lemma loading_callable id lc b w :
  callable_or_absent lc ->
  notify id lc b w
  = ({| instance := instance w; suspended := suspended w;
        fresh := fresh w; trace := trace w ++ loading id lc b |}, None).
Proof.
  intros C. unfold notify, loading.
  destruct (truthy lc) eqn:T.
  - destruct (C T) as [f ->]. reflexivity.
  - destruct w; simpl.
    destruct lc; try discriminate T; rewrite app_nil_r; reflexivity.
Qed.

Lemma loading_not_callable id lc b w :
  ~ callable_or_absent lc ->
  notify id lc b w = (w, Some TypeError) /\ loading id lc b = [].
Proof.
  intros C. unfold notify, loading, callable_or_absent in *.
  destruct (truthy lc) eqn:T.
  - destruct lc; try (split; reflexivity).
    exfalso. apply C. intros _. eexists. reflexivity.
  - exfalso. apply C. discriminate.
Qed.

Lemma callable_dec lc : callable_or_absent lc \/ ~ callable_or_absent lc.
Proof.
  unfold callable_or_absent.
  destruct (truthy lc) eqn:T; [|left; discriminate].
  destruct lc; try (right; intros H; destruct (H eq_refl); discriminate).
  left. eauto.
Qed.

(** What the second half of [call] does to the world, whatever the
    outcome of the [try] block. *)
Lemma resume_world fr r w :
  fst (resume fr r w)
  = {| instance :=
         with_current (requests_current (instance w) - 1) (instance w);
       suspended := suspended w;
       fresh := fresh w;
       trace := trace w ++ [Release (fr_id fr)]
                  ++ loading (fr_id fr) (fr_loadingCallback fr) false |}.
Proof.
  unfold resume.
  destruct (callable_dec (fr_loadingCallback fr)) as [C|C].
  - rewrite (loading_callable _ _ _ _ C). simpl.
    rewrite <- app_assoc. reflexivity.
  - destruct (loading_not_callable (fr_id fr) _ false
                (release (fr_id fr) w) C) as [-> ->].
    reflexivity.
Qed.

(** URL resolution throws nothing but the configuration error, or a
    TypeError when the endpoint is not a string. *)
Lemma resolve_throws o a t :
  resolve o a = Throw t ->
  t = AuroraInstanceError (lit "URL cannot be null") \/ t = TypeError.
Proof.
  unfold resolve, endpoint_of, normalizeUrl.
  destruct (nullish_or _ _); simpl; try (intros [= <-]; right; reflexivity).
  destruct (_ && _); intros [= <-]. left. reflexivity.
Qed.

(** The two ways the first half of [call] ends once the gate is passed. *)
Lemma admitted_cases fr w :
  (exists url,
      resolve (fr_options fr) (instance w) = Ok url /\
      callable_or_absent (fr_loadingCallback fr) /\
      admitted fr w
      = ({| instance := instance w;
            suspended := suspended w ++ [fr];
            fresh := fresh w;
            trace := trace w
                       ++ loading (fr_id fr) (fr_loadingCallback fr) true
                       ++ [Dispatch (fr_id fr) (defaults (instance w))
                             (<[lit "signal" := signal_of (fr_abortController fr)]>
                                (<[lit "url" := VStr url]> (fr_options fr)))] |},
         Suspended (fr_id fr)))
  \/
  (exists c,
      (resolve (fr_options fr) (instance w) = Throw c
       \/ (~ callable_or_absent (fr_loadingCallback fr) /\ c = TypeError)) /\
      admitted fr w
      = ({| instance :=
              with_current (requests_current (instance w) - 1) (instance w);
            suspended := suspended w;
            fresh := fresh w;
            trace := trace w ++ [Release (fr_id fr)]
                       ++ loading (fr_id fr) (fr_loadingCallback fr) false |},
         Settled (Rejected c))).
Proof.
  unfold admitted, try_block.
  destruct (resolve (fr_options fr) (instance w)) as [url|t] eqn:R.
  - destruct (callable_dec (fr_loadingCallback fr)) as [C|C].
    + left. exists url. split; [reflexivity|]. split; [exact C|].
      rewrite (loading_callable _ _ _ _ C). unfold suspend, emit. simpl.
      rewrite <- app_assoc. reflexivity.
    + right. exists TypeError. split; [right; split; [exact C | reflexivity]|].
      destruct (loading_not_callable (fr_id fr) _ true w C) as [-> _].
      pose proof (resume_world fr (Throw TypeError) w) as RW.
      unfold resume in *.
      destruct (loading_not_callable (fr_id fr) _ false
                  (release (fr_id fr) w) C) as [E1 E2].
      rewrite E1 in *. simpl in *. rewrite RW. reflexivity.
  - pose proof (resume_world fr (Throw t) w) as RW.
    unfold resume in *.
    destruct (callable_dec (fr_loadingCallback fr)) as [C|C].
    + right. exists t. split; [left; reflexivity|].
      rewrite (loading_callable _ _ _ _ C) in *. simpl in *.
      rewrite RW. f_equal. f_equal.
      destruct (resolve_throws _ _ _ R) as [-> | ->]; reflexivity.
    + right. exists TypeError.
      split; [right; split; [exact C | reflexivity]|].
      destruct (loading_not_callable (fr_id fr) _ false
                  (release (fr_id fr) w) C) as [E1 E2].
      rewrite E1 in *. simpl in *. rewrite RW. reflexivity.
Qed.

(* ===================================================================== *)
(** ** Histories *)
(* ===================================================================== *)

Lemma effects_of_app id tr1 tr2 :
  effects_of id (tr1 ++ tr2) = effects_of id tr1 ++ effects_of id tr2.
Proof. apply List.filter_app. Qed.

Lemma effects_of_same id tr :
  (forall e, e ∈ tr -> effect_id e = id) -> effects_of id tr = tr.
Proof.
  induction tr as [|e tr IH]; intros H; simpl; [reflexivity|].
  rewrite (H e) by set_solver. rewrite Nat.eqb_refl. f_equal.
  apply IH. intros e' He'. apply H. set_solver.
Qed.

Lemma effects_of_other id tr :
  (forall e, e ∈ tr -> effect_id e <> id) -> effects_of id tr = [].
Proof.
  induction tr as [|e tr IH]; intros H; simpl; [reflexivity|].
  destruct (Nat.eqb_spec (effect_id e) id) as [E|_].
  - exfalso. apply (H e); [set_solver | exact E].
  - apply IH. intros e' He'. apply H. set_solver.
Qed.

Lemma loading_tagged id lc b e : e ∈ loading id lc b -> effect_id e = id.
Proof.
  unfold loading. destruct lc; simpl; intros H; try (by inversion H).
  apply list_elem_of_singleton in H. by subst.
Qed.

Lemma take_spec id l fr rest :
  take id l = Some (fr, rest) ->
  fr_id fr = id /\
  exists pre post, l = pre ++ fr :: post /\ rest = pre ++ post.
Proof.
  revert fr rest. induction l as [|x l IH]; intros fr rest; simpl.
  - discriminate.
  - destruct (Nat.eqb_spec (fr_id x) id) as [E|NE].
    + intros [= <- <-]. split; [exact E|]. exists [], l. split; reflexivity.
    + destruct (take id l) as [[y r]|] eqn:T; [|discriminate].
      intros [= <- <-]. destruct (IH _ _ eq_refl) as [E [pre [post [-> ->]]]].
      split; [exact E|]. exists (x :: pre), post. split; reflexivity.
Qed.

Lemma effects_of_extend_other id tr new :
  (forall e, e ∈ new -> effect_id e <> id) ->
  effects_of id (tr ++ new) = effects_of id tr.
Proof.
  intros H. rewrite effects_of_app, (effects_of_other _ _ H).
  apply app_nil_r.
Qed.

Lemma effects_of_extend_fresh id tr new :
  (forall e, e ∈ tr -> effect_id e <> id) ->
  (forall e, e ∈ new -> effect_id e = id) ->
  effects_of id (tr ++ new) = new.
Proof.
  intros H1 H2.
  rewrite effects_of_app, (effects_of_other _ _ H1), (effects_of_same _ _ H2).
  reflexivity.
Qed.

Lemma consistent_boot a : requests_current a = 0 -> consistent (boot a).
Proof.
  intros E. constructor; simpl.
  - exact E.
  - intros fr H. inversion H.
  - constructor.
  - intros fr H. inversion H.
  - intros id H. lia.
  - intros e H. inversion H.
Qed.

(** Changing fields other than the counter preserves consistency. *)
Lemma consistent_fields a' w :
  requests_current a' = requests_current (instance w) ->
  consistent w -> consistent (with_instance a' w).
Proof.
  intros E [C1 C2 C3 C4 C5 C6]. constructor; simpl; try assumption.
  rewrite E. exact C1.
Qed.

Lemma consistent_call method o w :
  consistent w -> consistent (fst (call method o w)).
Proof.
  intros [C1 C2 C3 C4 C5 C6]. unfold call.
  destruct (limit_reached (instance w)); [constructor; assumption|].
  remember (bind_parameters (instance w) (fresh w) method o) as fr eqn:Efr.
  assert (Hid : fr_id fr = fresh w) by (subst fr; reflexivity).
  clear Efr.
  assert (Hold : forall e, e ∈ trace w -> effect_id e <> fresh w).
  { intros e He. specialize (C6 e He). lia. }
  destruct (admitted_cases fr (acquire w))
    as [(url & R & C & ->) | (c & _ & ->)];
    unfold acquire;
    cbn [instance suspended fresh trace fst requests_current with_current
         defaults];
    rewrite !Hid.
  - set (new := [Acquire (fresh w)]
                  ++ loading (fresh w) (fr_loadingCallback fr) true
                  ++ [Dispatch (fresh w) (defaults (instance w))
                        (<[lit "signal":=signal_of (fr_abortController fr)]>
                           (<[lit "url":=VStr url]> (fr_options fr)))]).
    assert (Hnew : forall e, e ∈ new -> effect_id e = fresh w).
    { intros e. unfold new. rewrite !elem_of_app, !list_elem_of_singleton.
      intros [->|[H| ->]]; try reflexivity.
      exact (loading_tagged _ _ _ _ H). }
    assert (Htr : (trace w ++ [Acquire (fresh w)])
                    ++ loading (fresh w) (fr_loadingCallback fr) true
                    ++ [Dispatch (fresh w) (defaults (instance w))
                          (<[lit "signal":=signal_of (fr_abortController fr)]>
                             (<[lit "url":=VStr url]> (fr_options fr)))]
                  = trace w ++ new).
    { unfold new. rewrite <- app_assoc. reflexivity. }
    rewrite Htr.
    constructor;
      cbn [instance suspended fresh trace requests_current with_current].
    + rewrite length_app. simpl. lia.
    + intros x [H| ->%list_elem_of_singleton]%elem_of_app.
      * specialize (C2 x H). lia.
      * rewrite Hid. lia.
    + unfold in_flight_ids in *. simpl. rewrite map_app. simpl.
      apply NoDup_app. split; [exact C3|]. split; [|apply NoDup_singleton].
      intros i Hi ->%list_elem_of_singleton.
      apply list_elem_of_In, in_map_iff in Hi as (x & E & Hx).
      apply list_elem_of_In in Hx. specialize (C2 x Hx). lia.
    + intros x [H| ->%list_elem_of_singleton]%elem_of_app.
      * destruct (C4 x H) as (store & req & E). exists store, req.
        rewrite effects_of_extend_other; [exact E|].
        intros e He. rewrite (Hnew e He). specialize (C2 x H). lia.
      * eexists _, _. rewrite Hid.
        rewrite (effects_of_extend_fresh _ _ _ Hold Hnew). reflexivity.
    + intros i Hi Hn. unfold in_flight_ids in *. simpl in Hn.
      rewrite map_app in Hn. simpl in Hn.
      assert (i <> fresh w) by set_solver.
      assert (i ∉ List.map fr_id (suspended w)) by set_solver.
      destruct (C5 i ltac:(lia) ltac:(assumption)) as [lc D].
      exists lc. rewrite effects_of_extend_other; [exact D|].
      intros e He. rewrite (Hnew e He). lia.
    + intros e [H|H]%elem_of_app.
      * specialize (C6 e H). lia.
      * rewrite (Hnew e H). lia.
  - set (new := [Acquire (fresh w)] ++ [Release (fresh w)]
                  ++ loading (fresh w) (fr_loadingCallback fr) false).
    assert (Hnew : forall e, e ∈ new -> effect_id e = fresh w).
    { intros e. unfold new. rewrite !elem_of_app, !list_elem_of_singleton.
      intros [->|[->|H]]; try reflexivity.
      exact (loading_tagged _ _ _ _ H). }
    assert (Htr : (trace w ++ [Acquire (fresh w)])
                    ++ [Release (fresh w)]
                    ++ loading (fresh w) (fr_loadingCallback fr) false
                  = trace w ++ new).
    { unfold new. rewrite <- app_assoc. reflexivity. }
    rewrite Htr.
    constructor;
      cbn [instance suspended fresh trace requests_current with_current].
    + lia.
    + intros x H. specialize (C2 x H). lia.
    + exact C3.
    + intros x H. destruct (C4 x H) as (store & req & E). exists store, req.
      rewrite effects_of_extend_other; [exact E|].
      intros e He. rewrite (Hnew e He). specialize (C2 x H). lia.
    + intros i Hi Hn. unfold in_flight_ids in *. simpl in Hn.
      destruct (decide (i = fresh w)) as [->|Hne].
      * exists (fr_loadingCallback fr). right.
        apply (effects_of_extend_fresh _ _ _ Hold Hnew).
      * destruct (C5 i ltac:(lia) Hn) as [lc D].
        exists lc. rewrite effects_of_extend_other; [exact D|].
        intros e He. rewrite (Hnew e He). lia.
    + intros e [H|H]%elem_of_app.
      * specialize (C6 e H). lia.
      * rewrite (Hnew e H). lia.
Qed.

Lemma consistent_settle id r w :
  consistent w -> consistent (fst (settle id r w)).
Proof.
  intros [C1 C2 C3 C4 C5 C6]. unfold settle.
  destruct (take id (suspended w)) as [[fr rest]|] eqn:T;
    [|constructor; assumption].
  destruct (take_spec _ _ _ _ T) as (Hid & pre & post & Hs & ->).
  match goal with
  | |- consistent (fst (let (w2, c) := resume fr r ?w1 in _)) =>
      pose proof (resume_world fr r w1) as RW;
      destruct (resume fr r w1) as [w2 c]
  end.
  cbn [fst] in *. subst w2.
  cbn [instance suspended fresh trace requests_current with_current].
  rewrite Hid.
  set (new := [Release id] ++ loading id (fr_loadingCallback fr) false).
  assert (Hnew : forall e, e ∈ new -> effect_id e = id).
  { intros e. unfold new. rewrite elem_of_app, list_elem_of_singleton.
    intros [->|H]; [reflexivity | exact (loading_tagged _ _ _ _ H)]. }
  assert (Hfr : fr ∈ suspended w) by (rewrite Hs; set_solver).
  unfold in_flight_ids in *. rewrite Hs in C3.
  rewrite map_app in C3. simpl in C3. rewrite Hid in C3.
  apply NoDup_app in C3 as (N1 & N2 & [N3 N4]%NoDup_cons).
  assert (Hrest : forall x, x ∈ pre ++ post -> x ∈ suspended w /\ fr_id x <> id).
  { intros x Hx. split; [rewrite Hs; set_solver|].
    apply elem_of_app in Hx as [Hx|Hx].
    - intros E. apply (N2 id); [|set_solver].
      rewrite <- E. apply list_elem_of_In, in_map, list_elem_of_In, Hx.
    - intros E. apply N3.
      rewrite <- E. apply list_elem_of_In, in_map, list_elem_of_In, Hx. }
  constructor;
    cbn [instance suspended fresh trace requests_current with_current].
  - rewrite C1, Hs, !length_app. simpl. lia.
  - intros x Hx. apply C2, Hrest, Hx.
  - unfold in_flight_ids. cbn [suspended].
    rewrite map_app. apply NoDup_app. split; [exact N1|]. split; [|exact N4].
    intros i Hi Hp. apply (N2 i Hi). set_solver.
  - intros x Hx. destruct (Hrest x Hx) as [Hin Hne].
    destruct (C4 x Hin) as (store & req & E). exists store, req.
    rewrite effects_of_extend_other; [exact E|].
    intros e He. rewrite (Hnew e He). congruence.
  - intros i Hi Hn. unfold in_flight_ids in Hn. cbn [suspended] in Hn.
    destruct (decide (i = id)) as [->|Hne].
    + destruct (C4 fr Hfr) as (store & req & E). rewrite Hid in E.
      exists (fr_loadingCallback fr). left. exists store, req.
      rewrite effects_of_app, E, (effects_of_same _ _ Hnew).
      unfold new. rewrite <- !app_assoc. reflexivity.
    + assert (i ∉ List.map fr_id (suspended w)).
      { rewrite Hs, map_app. simpl. rewrite Hid.
        rewrite map_app in Hn. set_solver. }
      destruct (C5 i Hi ltac:(assumption)) as [lc D].
      exists lc. rewrite effects_of_extend_other; [exact D|].
      intros e He. rewrite (Hnew e He). congruence.
  - intros e [H|H]%elem_of_app.
    + apply C6, H.
    + rewrite (Hnew e H), <- Hid. apply C2, Hfr.
Qed.

(** [removeParams], whether it throws or not, leaves the gate alone. *)
Lemma removeParams_gate names a :
  let a' := or_unchanged a (removeParams names a) in
  requests_current a' = requests_current a /\
  requests_max a' = requests_max a.
Proof.
  destruct names as [names|]; [|split; reflexivity].
  unfold removeParams.
  assert (G : forall acc,
    match acc with
    | Ok b => requests_current b = requests_current a /\
              requests_max b = requests_max a
    | Throw _ => True
    end ->
    let a' :=
      or_unchanged a
        (fold_left (fun acc param => try! a' := acc in delete_param param a')
                   names acc) in
    requests_current a' = requests_current a /\
    requests_max a' = requests_max a).
  { induction names as [|x names IH]; intros acc Hacc; simpl.
    - destruct acc; [exact Hacc | split; reflexivity].
    - apply IH. destruct acc as [b|]; simpl; [|exact I].
      unfold delete_param. destruct (params _); [exact Hacc | exact I]. }
  apply G. split; reflexivity.
Qed.

Lemma consistent_step w e : consistent w -> consistent (step w e).
Proof.
  intros C. destruct e; simpl.
  - apply consistent_call, C.
  - apply consistent_settle, C.
  - apply consistent_fields; [reflexivity | exact C].
  - apply consistent_fields; [reflexivity | exact C].
  - apply consistent_fields; [|exact C].
    destruct headerNames; reflexivity.
  - apply consistent_fields; [|exact C].
    unfold addParams. destruct (params _); reflexivity.
  - apply consistent_fields; [|exact C].
    apply (removeParams_gate paramNames (instance w)).
  - apply consistent_fields; [reflexivity | exact C].
  - apply consistent_fields; [reflexivity | exact C].
  - apply consistent_fields; [reflexivity | exact C].
Qed.

Lemma consistent_run es : forall w, consistent w -> consistent (run w es).
Proof.
  induction es as [|e es IH]; intros w C; simpl; [exact C|].
  apply IH, consistent_step, C.
Qed.

Lemma new_current o : requests_current (Aurora.new o) = 0.
Proof. reflexivity. Qed.

(** Every invocation, at every moment, is at one stage of its life. *)
Lemma consistent_lifecycle w :
  consistent w -> forall id, lifecycle id (effects_of id (trace w)).
Proof.
  intros [C1 C2 C3 C4 C5 C6] id.
  destruct (decide (id < fresh w)%nat) as [Hlt|Hge].
  - destruct (decide (id ∈ in_flight_ids w)) as [Hin|Hout].
    + unfold in_flight_ids in Hin.
      apply list_elem_of_In, in_map_iff in Hin as (fr & <- & Hfr).
      apply list_elem_of_In in Hfr.
      destruct (C4 fr Hfr) as (store & req & ->). constructor.
    + destruct (C5 id Hlt Hout) as [lc [(store & req & ->) | ->]];
        constructor.
  - rewrite effects_of_other; [constructor|].
    intros e He. specialize (C6 e He). lia.
Qed.

(* ===================================================================== *)
(** ** The gate *)
(* ===================================================================== *)

Lemma compare_inject_Z a b : (inject_Z a ?= inject_Z b)%Q = (a ?= b)%Z.
Proof. unfold Qcompare. simpl. rewrite !Z.mul_1_r. reflexivity. Qed.

Lemma lt_not_ge c m :
  JsNumber.lt (JsNumber.of_Z c) m = true ->
  JsNumber.ge (JsNumber.of_Z c) m = false.
Proof.
  unfold JsNumber.ge, JsNumber.of_Z.
  destruct m as [| | |q]; simpl; try congruence.
  rewrite <- (Qcompare_antisym (inject_Z c) q).
  destruct (inject_Z c ?= q)%Q; simpl; congruence.
Qed.

Lemma whole_next c m :
  m = JsNumber.PosInf \/ (exists z, m = JsNumber.of_Z z) ->
  JsNumber.ge (JsNumber.of_Z c) m = false ->
  JsNumber.le (JsNumber.of_Z (c + 1)) m = true.
Proof.
  intros [->|[z ->]]; [reflexivity|].
  unfold JsNumber.ge, JsNumber.le, JsNumber.of_Z.
  rewrite !compare_inject_Z.
  destruct (Z.compare_spec z c), (Z.compare_spec (c + 1) z);
    try reflexivity; try discriminate; lia.
Qed.

Lemma le_previous c m :
  JsNumber.le (JsNumber.of_Z c) m = true ->
  JsNumber.le (JsNumber.of_Z (c - 1)) m = true.
Proof.
  unfold JsNumber.le, JsNumber.of_Z.
  destruct m as [| | |q]; try congruence.
  destruct (inject_Z c ?= q)%Q eqn:C; try discriminate; intros _.
  - apply Qeq_alt in C.
    assert (L : (inject_Z (c - 1) < q)%Q).
    { rewrite <- C. rewrite <- Zlt_Qlt. lia. }
    apply Qlt_alt in L. unfold Qcompare in *. rewrite L. reflexivity.
  - apply Qlt_alt in C.
    assert (L : (inject_Z (c - 1) < q)%Q).
    { eapply Qlt_trans; [|exact C]. rewrite <- Zlt_Qlt. lia. }
    apply Qlt_alt in L. unfold Qcompare in *. rewrite L. reflexivity.
Qed.

Lemma whole_limit_value limit :
  whole limit ->
  limit_value limit = JsNumber.PosInf \/
  exists z, limit_value limit = JsNumber.of_Z z.
Proof.
  destruct limit as [[| | |q]|]; simpl; try (left; reflexivity).
  intros [z ->]. destruct (_ && _); [right; exists z|left]; reflexivity.
Qed.

Lemma limit_value_within limit :
  JsNumber.le (JsNumber.of_Z 0) (limit_value limit) = true.
Proof.
  pose proof (limit_value_rule limit) as R.
  remember (limit_value limit) as m eqn:E. clear E.
  destruct R as [q Hq| | | | |]; try reflexivity.
  unfold JsNumber.le, JsNumber.of_Z.
  change (inject_Z 0) with 0%Q.
  destruct (Qcompare_spec 0 q) as [E|L|G]; try reflexivity.
  exfalso. exact (Qlt_irrefl _ (Qlt_trans _ _ _ Hq G)).
Qed.

Lemma new_within_limit o : within_limit (Aurora.new o).
Proof. apply limit_value_within. Qed.

Lemma new_whole_max o : whole (maxConcurrentRequests o) -> whole_max (Aurora.new o).
Proof.
  intros H.
  apply (whole_limit_value
           (Some (default JsNumber.Infinity (maxConcurrentRequests o)))).
  destruct (maxConcurrentRequests o); [exact H | exact I].
Qed.

(** Every step but a change of the limit leaves [max] alone. *)
Lemma step_max w e :
  changes_limit e = false ->
  requests_max (instance (step w e)) = requests_max (instance w).
Proof.
  destruct e; simpl; try discriminate; intros _; try reflexivity.
  - unfold call. destruct (limit_reached _); [reflexivity|].
    destruct (admitted_cases
                (bind_parameters (instance w) (fresh w) method options0)
                (acquire w))
      as [(url & _ & _ & ->) | (c & _ & ->)]; reflexivity.
  - unfold settle. destruct (take _ _) as [[fr rest]|]; [|reflexivity].
    match goal with
    | |- context [resume fr r ?w1] =>
        pose proof (resume_world fr r w1) as RW;
        destruct (resume fr r w1) as [w2 c]
    end.
    cbn [fst] in *. subst w2. reflexivity.
  - destruct headerNames; reflexivity.
  - unfold addParams. destruct (params _); reflexivity.
  - apply (removeParams_gate paramNames (instance w)).
Qed.

(** With a whole or unbounded [max], every step but a change of the
    limit keeps [current <= max]. *)
Lemma step_within_limit w e :
  changes_limit e = false ->
  whole_max (instance w) ->
  within_limit (instance w) -> within_limit (instance (step w e)).
Proof.
  intros He W B. unfold within_limit in *.
  rewrite (step_max w e He).
  destruct e; simpl; try discriminate; try exact B.
  - unfold call. destruct (limit_reached (instance w)) eqn:L; [exact B|].
    destruct (admitted_cases
                (bind_parameters (instance w) (fresh w) method options0)
                (acquire w))
      as [(url & _ & _ & ->) | (c & _ & ->)]; simpl.
    + apply whole_next; [exact W | exact L].
    + replace (requests_current (instance w) + 1 - 1)
        with (requests_current (instance w)) by lia.
      exact B.
  - unfold settle. destruct (take _ _) as [[fr rest]|]; [|exact B].
    match goal with
    | |- context [resume fr r ?w1] =>
        pose proof (resume_world fr r w1) as RW;
        destruct (resume fr r w1) as [w2 c]
    end.
    cbn [fst] in *. subst w2. simpl. apply le_previous, B.
  - destruct headerNames; exact B.
  - unfold addParams. destruct (params _); exact B.
  - destruct (removeParams_gate paramNames (instance w)) as [-> _].
    exact B.
Qed.

Lemma run_within_limit es :
  forall w,
    forallb (fun e => negb (changes_limit e)) es = true ->
    whole_max (instance w) ->
    within_limit (instance w) -> within_limit (instance (run w es)).
Proof.
  induction es as [|e es IH]; intros w F W B; simpl; [exact B|].
  simpl in F. apply andb_true_iff in F as [Fe Fes].
  apply negb_true_iff in Fe.
  apply IH; [exact Fes | |].
  - unfold whole_max. rewrite (step_max w e Fe). exact W.
  - apply step_within_limit; assumption.
Qed.

Lemma count_own_effects p id tr :
  (forall e, p e = true -> effect_id e = id) ->
  count_effect p tr = count_effect p (effects_of id tr).
Proof.
  intros H. unfold count_effect, effects_of.
  induction tr as [|e tr IH]; simpl; [reflexivity|].
  destruct (p e) eqn:P.
  - rewrite (H e P), Nat.eqb_refl. simpl. rewrite P. simpl. f_equal. exact IH.
  - destruct (Nat.eqb (effect_id e) id); simpl; rewrite ?P; exact IH.
Qed.

Lemma is_acquire_own id e : is_acquire id e = true -> effect_id e = id.
Proof. destruct e; simpl; try discriminate. apply Nat.eqb_eq. Qed.

Lemma is_release_own id e : is_release id e = true -> effect_id e = id.
Proof. destruct e; simpl; try discriminate. apply Nat.eqb_eq. Qed.

Lemma acquire_count w :
  consistent w ->
  forall id, count_effect (is_acquire id) (trace w)
             = if decide (id < fresh w)%nat then 1%nat else 0%nat.
Proof.
  intros C id. pose proof (consistent_lifecycle w C id) as L.
  rewrite (count_own_effects _ id _ (is_acquire_own id)).
  destruct C as [C1 C2 C3 C4 C5 C6].
  case_decide as Hlt.
  - assert (N : effects_of id (trace w) <> []).
    { destruct (decide (id ∈ in_flight_ids w)) as [Hin|Hout].
      - apply list_elem_of_In, in_map_iff in Hin as (fr & <- & Hfr).
        apply list_elem_of_In in Hfr.
        destruct (C4 fr Hfr) as (? & ? & ->). discriminate.
      - destruct (C5 id Hlt Hout) as [lc [(? & ? & ->) | ->]]; discriminate. }
    destruct L as [|lc ? ?|lc ? ?|lc]; [congruence| | |];
      destruct lc; unfold count_effect; simpl;
      rewrite ?Nat.eqb_refl; reflexivity.
  - rewrite effects_of_other; [reflexivity|].
    intros e He. specialize (C6 e He). lia.
Qed.

Lemma release_count w :
  consistent w ->
  forall id, count_effect (is_release id) (trace w)
             = if decide ((id < fresh w)%nat /\ id ∉ in_flight_ids w)
               then 1%nat else 0%nat.
Proof.
  intros C id.
  rewrite (count_own_effects _ id _ (is_release_own id)).
  destruct C as [C1 C2 C3 C4 C5 C6].
  case_decide as H.
  - destruct H as [Hlt Hout].
    destruct (C5 id Hlt Hout) as [lc [(? & ? & ->) | ->]];
      destruct lc; unfold count_effect; simpl;
      rewrite ?Nat.eqb_refl; reflexivity.
  - destruct (decide (id < fresh w)%nat) as [Hlt|Hge].
    + destruct (decide (id ∈ in_flight_ids w)) as [Hin|Hout]; [|tauto].
      apply list_elem_of_In, in_map_iff in Hin as (fr & <- & Hfr).
      apply list_elem_of_In in Hfr.
      destruct (C4 fr Hfr) as (? & ? & ->).
      destruct (fr_loadingCallback fr); unfold count_effect; simpl;
        rewrite ?Nat.eqb_refl; reflexivity.
    + rewrite effects_of_other; [reflexivity|].
      intros e He. specialize (C6 e He). lia.
Qed.

(** C1, as the code has it.  In every history of an instance, [current]
    is the number of admitted invocations of [call] that have not
    settled, hence 0 once all have; every admitted invocation increments
    the counter once and decrements it once, on whichever path it ends
    (the second half of [call] decrements whatever the transport's
    outcome; a throw before the dispatch is covered by the count).  When
    the limit given to the constructor is a whole number or unbounded and
    is not changed during the history, [current] never exceeds [max];
    more generally, with a whole or unbounded [max], any step other than
    a change of the limit keeps [current <= max]. *)
Theorem gate_counter :
  forall (o : Aurora.options) (es : list event),
    let w := run (boot (Aurora.new o)) es in
    requests_current (instance w) = Z.of_nat (List.length (suspended w)) /\
    (suspended w = [] -> requests_current (instance w) = 0) /\
    (forall id,
        count_effect (is_acquire id) (trace w)
        = if decide (id < fresh w)%nat then 1%nat else 0%nat) /\
    (forall id,
        count_effect (is_release id) (trace w)
        = if decide ((id < fresh w)%nat /\ id ∉ in_flight_ids w)
          then 1%nat else 0%nat) /\
    (forall fr r w0,
        requests_current (instance (fst (resume fr r w0)))
        = requests_current (instance w0) - 1) /\
    (whole (maxConcurrentRequests o) ->
     forallb (fun e => negb (changes_limit e)) es = true ->
     within_limit (instance w)) /\
    (forall e,
        changes_limit e = false ->
        whole_max (instance w) ->
        within_limit (instance w) -> within_limit (instance (step w e))).
Proof.
  intros o es w.
  assert (C : consistent w).
  { apply consistent_run, consistent_boot, new_current. }
  split; [apply C|].
  split; [intros E; rewrite (counted w C), E; reflexivity|].
  split; [apply acquire_count, C|].
  split; [apply release_count, C|].
  split; [intros fr r w0; rewrite resume_world; reflexivity|].
  split; [|intros e; apply step_within_limit].
  intros W F. apply run_within_limit.
  - exact F.
  - apply new_whole_max, W.
  - apply new_within_limit.
Qed.

Lemma gate_counter_witness :
  within_limit
    (instance
       (run (boot (Aurora.new (limited (JsNumber.of_Z 2))))
            [Call (lit "get") items; Call (lit "post") items;
             Call (lit "get") items; Settle 0 (Ok ok_response);
             Call (lit "get") ∅; Settle 1 (Throw (AxiosError_ canceled))])).
Proof.
  apply (gate_counter (limited (JsNumber.of_Z 2))).
  - exists 2. reflexivity.
  - reflexivity.
Defined.

(** C1 as stated fails.  Lowering the limit while two requests are in
    flight leaves [current = 2 > 1 = max]; and a limit of 5/2 admits a
    third request, leaving [current = 3 > 5/2 = max]. *)
Lemma current_exceeds_max :
  (let w := run (boot (Aurora.new (limited (JsNumber.of_Z 2))))
                [Call (lit "get") items; Call (lit "get") items;
                 SetMaxConcurrentRequestsLimit (Some (JsNumber.of_Z 1))] in
   requests_current (instance w) = 2 /\
   requests_max (instance w) = JsNumber.of_Z 1 /\
   JsNumber.gt (JsNumber.of_Z (requests_current (instance w)))
               (requests_max (instance w)) = true) /\
  (let w := run (boot (Aurora.new (limited (JsNumber.Fin (5 # 2)))))
                [Call (lit "get") items; Call (lit "get") items;
                 Call (lit "get") items] in
   requests_current (instance w) = 3 /\
   requests_max (instance w) = JsNumber.Fin (5 # 2) /\
   JsNumber.gt (JsNumber.of_Z (requests_current (instance w)))
               (requests_max (instance w)) = true).
Proof. repeat split; vm_compute; reflexivity. Qed.

(* ===================================================================== *)
(** ** Admission *)
(* ===================================================================== *)

(** C2.  If [current >= max] on entry, [call] rejects with
    [AuroraInstanceError("Request limit exceeded")] and the world is what
    it was: the counter is not incremented, no URL is resolved, nothing
    is handed to the transport, no effect is recorded.  If
    [current < max], the invocation passes the gate: the counter is
    incremented by one and the body of [call] runs from there; when the
    invocation then waits for the transport, the counter still holds the
    incremented value. *)
Theorem call_admission :
  forall (method : jsstring) (o : obj) (w : world),
    let a := instance w in
    let current := JsNumber.of_Z (requests_current a) in
    (JsNumber.ge current (requests_max a) = true ->
     call method o w
     = (w, Settled (Rejected
                      (AuroraInstanceError (lit "Request limit exceeded"))))) /\
    (JsNumber.lt current (requests_max a) = true ->
     call method o w
     = admitted (bind_parameters a (fresh w) method o) (acquire w) /\
     requests_current (instance (acquire w)) = requests_current a + 1 /\
     trace (acquire w) = trace w ++ [Acquire (fresh w)] /\
     (forall id,
         snd (call method o w) = Suspended id ->
         requests_current (instance (fst (call method o w)))
         = requests_current a + 1)).
Proof.
  intros method o w a current. split.
  - intros G. unfold call, limit_reached. fold a. fold current.
    rewrite G. reflexivity.
  - intros L. apply lt_not_ge in L.
    assert (E : call method o w
                = admitted (bind_parameters a (fresh w) method o) (acquire w)).
    { unfold call, limit_reached. fold a. rewrite L. reflexivity. }
    split; [exact E|]. split; [reflexivity|]. split; [reflexivity|].
    intros id. rewrite E.
    destruct (admitted_cases (bind_parameters a (fresh w) method o) (acquire w))
      as [(url & _ & _ & ->) | (c & _ & ->)]; simpl.
    + reflexivity.
    + discriminate.
Qed.

Lemma call_admission_witness :
  (let w := run (boot (Aurora.new (limited (JsNumber.of_Z 1))))
                [Call (lit "get") items] in
   call (lit "get") ∅ w
   = (w, Settled (Rejected
                    (AuroraInstanceError (lit "Request limit exceeded"))))) /\
  (let w := boot (Aurora.new (limited (JsNumber.of_Z 1))) in
   call (lit "get") items w
   = admitted (bind_parameters (instance w) (fresh w) (lit "get") items)
              (acquire w)).
Proof.
  split.
  - apply call_admission. reflexivity.
  - apply call_admission. reflexivity.
Defined.

(* ===================================================================== *)
(** ** Classification of failures *)
(* ===================================================================== *)

(** The three outcomes of the transport, when the loading callback is a
    function or absent. *)
Lemma resume_success fr response w :
  callable_or_absent (fr_loadingCallback fr) ->
  snd (resume fr (Ok response) w)
  = Resolved {| Handle.response := Some response;
                Handle.error := None;
                Handle.hasError := false;
                Handle.method := fr_method fr;
                Handle.options := fr_options fr |}.
Proof.
  intros C. unfold resume. rewrite (loading_callable _ _ _ _ C). reflexivity.
Qed.

Lemma resume_classified fr e req w :
  callable_or_absent (fr_loadingCallback fr) ->
  request e = Some req ->
  snd (resume fr (Throw (AxiosError_ e)) w)
  = Resolved
      {| Handle.response := None;
         Handle.error :=
           Some {| name := lit "AuroraPromiseError";
                   msg := message e;
                   errorCode := code e;
                   requestStatus := prop req (lit "status");
                   responseStatus :=
                     match response e with
                     | Some r => status r
                     | None => JsNumber.of_Z 500
                     end;
                   axiosInstanceConfig := config e |};
         Handle.hasError := true;
         Handle.method := fr_method fr;
         Handle.options := fr_options fr |}.
Proof.
  intros C R. unfold resume. rewrite (loading_callable _ _ _ _ C).
  unfold catch_clause, new_AuroraPromiseError. rewrite R. reflexivity.
Qed.

Lemma resume_rethrow fr t w :
  callable_or_absent (fr_loadingCallback fr) ->
  (forall e, t <> AxiosError_ e) ->
  snd (resume fr (Throw t) w) = Rejected t.
Proof.
  intros C N. unfold resume. rewrite (loading_callable _ _ _ _ C).
  destruct t; try reflexivity. exfalso. exact (N e eq_refl).
Qed.

(** C10.  An [AxiosError] without a request object makes the
    constructor of the classified error throw a TypeError; the promise of
    the suspended invocation that receives it is rejected with that
    TypeError instead of resolving to a handle. *)
Theorem classification_throws_without_request :
  forall (e : AxiosError) (id : nat) (w : world) (fr : frame)
         (rest : list frame),
    request e = None ->
    take id (suspended w) = Some (fr, rest) ->
    new_AuroraPromiseError e = Throw TypeError /\
    snd (settle id (Throw (AxiosError_ e)) w) = Some (Rejected TypeError).
Proof.
  intros e id w fr rest R T.
  assert (N : new_AuroraPromiseError e = Throw TypeError).
  { unfold new_AuroraPromiseError. rewrite R. reflexivity. }
  split; [exact N|].
  unfold settle. rewrite T.
  match goal with
  | |- snd (let (w2, c) := resume fr ?r ?w1 in _) = _ =>
      assert (E : snd (resume fr r w1) = Rejected TypeError);
      [|destruct (resume fr r w1); simpl in *; congruence]
  end.
  unfold resume, catch_clause. rewrite N. simpl.
  destruct (callable_dec (fr_loadingCallback fr)) as [C|C].
  - rewrite (loading_callable _ _ _ _ C). reflexivity.
  - match goal with
    | |- context [notify ?i ?lc ?b ?w1] =>
        destruct (loading_not_callable i lc b w1 C) as [-> _]
    end.
    reflexivity.
Qed.

Lemma classification_throws_without_request_witness :
  let w := run (boot (Aurora.new api)) [Call (lit "get") items] in
  snd (settle 0 (Throw (AxiosError_ canceled)) w) = Some (Rejected TypeError).
Proof.
  intros w.
  eapply (classification_throws_without_request canceled 0 w).
  - reflexivity.
  - vm_compute. reflexivity.
Defined.

(** C4, at the input where the code departs from it.  A request is
    admitted and dispatched; the transport fails with an [AxiosError]
    that has no request object.  The promise of [call] is rejected with a
    TypeError: no handle, no [hasError]. *)
Theorem transport_failure_without_request :
  let w0 := boot (Aurora.new api) in
  let o := {[ lit "endpoint" := VStr (lit "/orders") ]} : obj in
  snd (call (lit "post") o w0) = Suspended 0 /\
  count_effect (is_dispatch 0) (trace (fst (call (lit "post") o w0))) = 1%nat /\
  snd (settle 0 (Throw (AxiosError_ canceled)) (fst (call (lit "post") o w0)))
  = Some (Rejected TypeError).
Proof. repeat split; vm_compute; reflexivity. Qed.

(* ===================================================================== *)
(** ** The loading callback *)
(* ===================================================================== *)

(** C6, as the code has it.  In every history, the effects of one
    invocation form one of four sequences: a loading callback is notified
    of [true] at most once, directly before the dispatch, and of [false]
    at most once, last of all.  For an admitted invocation that supplies
    a loading callback [f]: if the URL resolves, [f(true)] is called once,
    then the request is dispatched, and [f(false)] is called once when
    the invocation is resumed, whatever the transport's outcome; if URL
    resolution throws, nothing is dispatched, [f(true)] is not called and
    [f(false)] is called once. *)
Theorem loading_notifications :
  (forall (o : Aurora.options) (es : list event) (id : nat),
      lifecycle id (effects_of id (trace (run (boot (Aurora.new o)) es)))) /\
  (forall (method : jsstring) (o : obj) (w : world) (f : callback),
      prop o (lit "loadingCallback") = VFun f ->
      limit_reached (instance w) = false ->
      let id := fresh w in
      let fr := bind_parameters (instance w) id method o in
      (forall url,
          resolve (fr_options fr) (instance w) = Ok url ->
          exists request,
            call method o w
            = ({| instance := instance (acquire w);
                  suspended := suspended w ++ [fr];
                  fresh := S id;
                  trace := trace w
                             ++ [Acquire id; Loading id f true;
                                 Dispatch id (defaults (instance w)) request] |},
               Suspended id)) /\
      (forall t,
          resolve (fr_options fr) (instance w) = Throw t ->
          snd (call method o w) = Settled (Rejected t) /\
          trace (fst (call method o w))
          = trace w ++ [Acquire id; Release id; Loading id f false]) /\
      (forall r w',
          trace (fst (resume fr r w'))
          = trace w' ++ [Release id; Loading id f false]) /\
      (forall r w' rest,
          take id (suspended w') = Some (fr, rest) ->
          trace (fst (settle id r w'))
          = trace w' ++ [Release id; Loading id f false])).
Proof.
  split.
  { intros o es id.
    apply consistent_lifecycle, consistent_run, consistent_boot, new_current. }
  intros method o w f Hf L id fr.
  assert (Hlc : fr_loadingCallback fr = VFun f) by exact Hf.
  assert (Hid : fr_id fr = id) by reflexivity.
  assert (E : call method o w = admitted fr (acquire w)).
  { unfold call. rewrite L. reflexivity. }
  assert (HR : forall r w',
             trace (fst (resume fr r w'))
             = trace w' ++ [Release id; Loading id f false]).
  { intros r w'. rewrite resume_world. simpl. rewrite Hf. reflexivity. }
  split; [|split; [|split]].
  - intros url R. rewrite E.
    destruct (admitted_cases fr (acquire w))
      as [(url' & R' & _ & ->) | (c & [R'|[C _]] & _)].
    + eexists. unfold acquire. simpl. rewrite Hf. simpl.
      rewrite <- app_assoc. reflexivity.
    + change (resolve (fr_options fr) (instance (acquire w)))
        with (resolve (fr_options fr) (instance w)) in R'.
      congruence.
    + exfalso. apply C. rewrite Hlc. intros _. eexists. reflexivity.
  - intros t R. rewrite E.
    destruct (admitted_cases fr (acquire w))
      as [(url' & R' & _ & _) | (c & [R'|[C _]] & ->)].
    + change (resolve (fr_options fr) (instance (acquire w)))
        with (resolve (fr_options fr) (instance w)) in R'.
      congruence.
    + change (resolve (fr_options fr) (instance (acquire w)))
        with (resolve (fr_options fr) (instance w)) in R'.
      assert (c = t) as -> by congruence.
      split; [reflexivity|].
      unfold acquire. simpl. rewrite Hf. simpl.
      rewrite <- app_assoc. reflexivity.
    + exfalso. apply C. rewrite Hlc. intros _. eexists. reflexivity.
  - exact HR.
  - intros r w' rest T. unfold settle. rewrite T.
    match goal with
    | |- context [resume fr r ?w1] =>
        pose proof (HR r w1) as H1; destruct (resume fr r w1) as [w2 c]
    end.
    exact H1.
Qed.

Lemma loading_notifications_witness :
  let w := boot (Aurora.new api) in
  let o := {[ lit "endpoint" := VStr (lit "/v1/items");
              lit "loadingCallback" := VFun 7%nat ]} : obj in
  let w' := fst (call (lit "get") o w) in
  trace (fst (resume (bind_parameters (instance w) 0 (lit "get") o)
                     (Throw (AxiosError_ canceled)) w'))
  = trace w' ++ [Release 0%nat; Loading 0%nat 7%nat false].
Proof.
  intros w o w'.
  apply (proj2 loading_notifications (lit "get") o w 7%nat).
  - vm_compute. reflexivity.
  - vm_compute. reflexivity.
Defined.

(** C6 as stated fails when URL normalization throws: the invocation
    below is admitted and supplies a callback, which is called with
    [false] once and never with [true]. *)
Lemma loading_true_skipped_when_url_throws :
  let w0 := boot (Aurora.new Aurora.no_options) in
  let o := {[ lit "loadingCallback" := VFun 7%nat ]} : obj in
  limit_reached (instance w0) = false /\
  snd (call (lit "get") o w0)
  = Settled (Rejected (AuroraInstanceError (lit "URL cannot be null"))) /\
  trace (fst (call (lit "get") o w0))
  = [Acquire 0%nat; Release 0%nat; Loading 0%nat 7%nat false] /\
  count_effect (is_loading 0%nat true) (trace (fst (call (lit "get") o w0)))
  = 0%nat /\
  count_effect (is_loading 0%nat false) (trace (fst (call (lit "get") o w0)))
  = 1%nat.
Proof. repeat split; vm_compute; reflexivity. Qed.

(* ===================================================================== *)
(** ** recall *)
(* ===================================================================== *)

Lemma call_suspended_dispatch method o w id :
  snd (call method o w) = Suspended id ->
  exists request,
    last (trace (fst (call method o w)))
    = Some (Dispatch id (defaults (instance w)) request).
Proof.
  unfold call. destruct (limit_reached (instance w)); [discriminate|].
  destruct (admitted_cases (bind_parameters (instance w) (fresh w) method o)
                           (acquire w))
    as [(url & _ & _ & ->) | (c & _ & ->)]; simpl; [|discriminate].
  intros [= <-]. eexists.
  rewrite !app_assoc. apply last_snoc.
Qed.

(** C5, as the code has it.  The handle of an invocation
    [call(method, o)] carries [method] and the options of [o] other than
    [abortController] and [loadingCallback], which the parameter list
    takes out.  [recall(customOptions)] is
    [call(method, {...options, ...customOptions})] on these: it passes
    the gate afresh, whatever the gate held when the handle was made, and
    the transport sees the default store as it is at recall time. *)
Theorem recall_contract :
  forall (a : Aurora.t) (id : nat) (method : jsstring) (o : obj)
         (r : result AxiosResponse) (w : world) (h : Handle.t),
    snd (resume (bind_parameters a id method o) r w) = Resolved h ->
    Handle.method h = method /\
    Handle.options h
    = delete (lit "loadingCallback") (delete (lit "abortController") o) /\
    forall (customOptions : option obj) (w' : world),
      recall h customOptions w'
      = call method
             (spread (delete (lit "loadingCallback")
                        (delete (lit "abortController") o))
                     (default ∅ customOptions)) w' /\
      (limit_reached (instance w') = true ->
       recall h customOptions w'
       = (w', Settled (Rejected
                         (AuroraInstanceError (lit "Request limit exceeded"))))) /\
      (forall id',
          snd (recall h customOptions w') = Suspended id' ->
          exists request,
            last (trace (fst (recall h customOptions w')))
            = Some (Dispatch id' (defaults (instance w')) request)).
Proof.
  intros a id method o r w h H.
  assert (Hh : Handle.method h = method /\
               Handle.options h
               = delete (lit "loadingCallback")
                   (delete (lit "abortController") o)).
  { unfold resume in H.
    destruct (notify _ _ _ _) as [w2 [t|]]; [discriminate|].
    simpl in H. destruct (catch_clause r) as [[[resp err] he]|t];
      [|discriminate].
    injection H as <-. split; reflexivity. }
  destruct Hh as [Hm Ho]. split; [exact Hm|]. split; [exact Ho|].
  intros customOptions w'. unfold recall. rewrite Hm, Ho.
  split; [reflexivity|]. split.
  - intros L. unfold call. rewrite L. reflexivity.
  - intros id'. apply call_suspended_dispatch.
Qed.

Lemma recall_contract_witness :
  let o := {[ lit "endpoint" := VStr (lit "/v1/items");
              lit "loadingCallback" := VFun 7%nat ]} : obj in
  let h := {| Handle.response := Some ok_response;
              Handle.error := None;
              Handle.hasError := false;
              Handle.method := lit "get";
              Handle.options := items |} in
  Handle.options h
  = delete (lit "loadingCallback") (delete (lit "abortController") o).
Proof.
  intros o h.
  apply (recall_contract (Aurora.new api) 0 (lit "get") o (Ok ok_response)
           (fst (call (lit "get") o (boot (Aurora.new api)))) h).
  vm_compute. reflexivity.
Defined.

(** C5 as stated fails.  A request made with a loading callback
    resolves; recalling it is not [call] on the option set the request
    was made with: the callback is gone from the captured options, and
    the recall dispatches without notifying it. *)
Lemma recall_drops_loadingCallback :
  let o := {[ lit "endpoint" := VStr (lit "/v1/items");
              lit "loadingCallback" := VFun 7%nat ]} : obj in
  let w1 := fst (call (lit "get") o (boot (Aurora.new api))) in
  exists w2 h,
    settle 0 (Ok ok_response) w1 = (w2, Some (Resolved h)) /\
    Handle.options h <> o /\
    snd (recall h None w2) = Suspended 1 /\
    snd (call (lit "get") (spread o ∅) w2) = Suspended 1 /\
    count_effect (is_loading 1%nat true) (trace (fst (recall h None w2)))
    = 0%nat /\
    count_effect (is_loading 1%nat true)
                 (trace (fst (call (lit "get") (spread o ∅) w2)))
    = 1%nat.
Proof.
  intros o w1.
  destruct (settle 0 (Ok ok_response) w1) as [w2 c] eqn:E.
  assert (Hc : c = Some (Resolved
                    {| Handle.response := Some ok_response;
                       Handle.error := None;
                       Handle.hasError := false;
                       Handle.method := lit "get";
                       Handle.options := items |})).
  { apply (f_equal snd) in E. simpl in E. rewrite <- E.
    vm_compute. reflexivity. }
  subst c. eexists w2, _. split; [reflexivity|].
  apply (f_equal fst) in E. simpl in E. subst w2.
  split.
  - simpl. intros H.
    apply (f_equal (fun m : obj => m !! lit "loadingCallback")) in H.
    vm_compute in H. discriminate.
  - repeat split; vm_compute; reflexivity.
Qed.


(* ===================================================================== *)
(** ** More on [normalizeUrl] *)
(* ===================================================================== *)

Lemma drop_while_app_all p (pre s : jsstring) :
  forallb p pre = true -> drop_while p (pre ++ s) = drop_while p s.
Proof.
  induction pre as [|c pre IH]; simpl; [reflexivity|].
  intros H. apply andb_true_iff in H as [Hc Hp]. rewrite Hc. exact (IH Hp).
Qed.

Lemma repeat_slash_all n : forallb is_slash (repeat slash n) = true.
Proof. induction n; simpl; [reflexivity | exact IHn]. Qed.

Lemma strip_trailing_extra (s : jsstring) n :
  strip_trailing_slashes (s ++ repeat slash n) = strip_trailing_slashes s.
Proof.
  unfold strip_trailing_slashes, drop_while_end.
  rewrite rev_app_distr, drop_while_app_all; [reflexivity|].
  rewrite forallb_rev. apply repeat_slash_all.
Qed.

Lemma strip_leading_extra (s : jsstring) n :
  strip_leading_slashes (repeat slash n ++ s) = strip_leading_slashes s.
Proof. apply drop_while_app_all, repeat_slash_all. Qed.

Lemma blank_trim (s : jsstring) :
  trim s = [] <-> forallb is_white_space s = true.
Proof.
  rewrite <- truthy_nil, trim_empty.
  destruct (forallb is_white_space s); simpl; split; congruence.
Qed.

(** X1.  Slashes between base and endpoint do not matter: unless both
    inputs are blank, adding trailing slashes to the base and leading
    slashes to the endpoint leaves the result of [normalizeUrl] as it
    is. *)
Theorem normalizeUrl_extra_slashes :
  forall (base endpoint : jsstring) (n m : nat),
    ~ (trim base = [] /\ trim endpoint = []) ->
    normalizeUrl (base ++ repeat slash n) (repeat slash m ++ endpoint)
    = normalizeUrl base endpoint.
Proof.
  intros base endpoint n m H. unfold normalizeUrl.
  rewrite strip_trailing_extra, strip_leading_extra.
  assert (A : negb (JsString.truthy (trim base))
              && negb (JsString.truthy (trim endpoint)) = false).
  { destruct (JsString.truthy (trim base)) eqn:B; [reflexivity|].
    destruct (JsString.truthy (trim endpoint)) eqn:E; [reflexivity|].
    exfalso. apply H. split; apply truthy_nil; assumption. }
  assert (A' : negb (JsString.truthy (trim (base ++ repeat slash n)))
               && negb (JsString.truthy (trim (repeat slash m ++ endpoint)))
               = false).
  { rewrite !trim_empty, !negb_involutive, !forallb_app.
    rewrite !trim_empty, !negb_involutive in A.
    destruct (forallb is_white_space base); simpl in *;
      [|reflexivity].
    rewrite A, !andb_false_r. reflexivity. }
  rewrite A, A'. reflexivity.
Qed.

Lemma normalizeUrl_extra_slashes_witness :
  normalizeUrl (lit "https://api.x.com" ++ repeat slash 3)
               (repeat slash 2 ++ lit "v1/items")
  = normalizeUrl (lit "https://api.x.com") (lit "v1/items").
Proof.
  apply normalizeUrl_extra_slashes.
  intros [H _]. vm_compute in H. discriminate.
Defined.

Lemma strip_trailing_nil (s : jsstring) :
  strip_trailing_slashes s = [] <-> forallb is_slash s = true.
Proof.
  unfold strip_trailing_slashes, drop_while_end. split.
  - intros H. apply (f_equal (@rev _)) in H. rewrite rev_involutive in H.
    simpl in H. apply drop_while_nil in H. rewrite forallb_rev in H. exact H.
  - intros H. rewrite drop_while_all; [reflexivity|].
    rewrite forallb_rev. exact H.
Qed.

Lemma strip_leading_nil (s : jsstring) :
  strip_leading_slashes s = [] <-> forallb is_slash s = true.
Proof.
  split; [apply drop_while_nil | apply drop_while_all].
Qed.

Lemma slashes_not_blank (s : jsstring) :
  forallb is_slash s = true -> s <> [] ->
  forallb is_white_space s = false.
Proof.
  destruct s as [|c s]; [congruence|]. simpl. intros H _.
  apply andb_true_iff in H as [Hc _]. apply is_slash_true in Hc. subst c.
  reflexivity.
Qed.

(** X2.  [normalizeUrl] returns the empty string exactly when base and
    endpoint consist of slashes only and are not both empty: such inputs
    pass the "URL cannot be null" test, which looks at white space, and
    nothing is left of them after the slashes are stripped. *)
Theorem normalizeUrl_empty_result :
  forall base endpoint : jsstring,
    normalizeUrl base endpoint = Ok []
    <-> forallb is_slash base = true /\ forallb is_slash endpoint = true /\
        (base <> [] \/ endpoint <> []).
Proof.
  intros base endpoint. unfold normalizeUrl. rewrite !trim_empty, !negb_involutive.
  split.
  - destruct (forallb is_white_space base && forallb is_white_space endpoint)
      eqn:B; [discriminate|].
    destruct (JsString.truthy (strip_trailing_slashes base)) eqn:T.
    + intros [= H]. destruct (strip_trailing_slashes base); discriminate.
    + intros [= H]. apply truthy_nil, strip_trailing_nil in T.
      apply strip_leading_nil in H.
      split; [exact T|]. split; [exact H|].
      destruct base; [|left; discriminate].
      destruct endpoint; [discriminate B | right; discriminate].
  - intros (Hb & He & Hn).
    assert (B : forallb is_white_space base && forallb is_white_space endpoint
                = false).
    { destruct Hn as [Hn|Hn].
      - rewrite (slashes_not_blank _ Hb Hn). reflexivity.
      - rewrite (slashes_not_blank _ He Hn). apply andb_false_r. }
    rewrite B.
    apply strip_trailing_nil in Hb. apply strip_leading_nil in He.
    rewrite Hb, He. reflexivity.
Qed.

(** X3.  On an instance without a base URL, such as the default export,
    the URL of a request is its endpoint without leading slashes,
    provided the endpoint is a string that is not blank. *)
Theorem resolve_without_base :
  forall (a : Aurora.t) (o : obj) (endpoint : jsstring),
    default [] (baseURL (defaults a)) = [] ->
    o !! lit "endpoint" = Some (VStr endpoint) ->
    trim endpoint <> [] ->
    resolve o a = Ok (strip_leading_slashes endpoint).
Proof.
  intros a o endpoint Hb Ho Ht.
  unfold resolve, endpoint_of, prop. rewrite Ho, Hb. simpl.
  unfold normalizeUrl.
  destruct (JsString.truthy (trim endpoint)) eqn:T.
  - rewrite andb_false_r. reflexivity.
  - apply truthy_nil in T. contradiction.
Qed.

Lemma resolve_without_base_witness :
  resolve {[ lit "endpoint" := VStr (lit "/v1/items") ]} aurora
  = Ok (lit "v1/items").
Proof.
  apply (resolve_without_base aurora _ (lit "/v1/items")).
  - reflexivity.
  - vm_compute. reflexivity.
  - vm_compute. discriminate.
Defined.

(* ===================================================================== *)
(** ** What reaches the transport *)
(* ===================================================================== *)

Lemma call_suspended method o w id :
  snd (call method o w) = Suspended id ->
  let fr := bind_parameters (instance w) (fresh w) method o in
  id = fresh w /\
  limit_reached (instance w) = false /\
  callable_or_absent (fr_loadingCallback fr) /\
  exists url,
    resolve (fr_options fr) (instance w) = Ok url /\
    fst (call method o w)
    = {| instance := instance (acquire w);
         suspended := suspended w ++ [fr];
         fresh := S (fresh w);
         trace := (trace w ++ [Acquire (fresh w)])
                    ++ loading (fresh w) (fr_loadingCallback fr) true
                    ++ [Dispatch (fresh w) (defaults (instance w))
                          (<[lit "signal" := signal_of (fr_abortController fr)]>
                             (<[lit "url" := VStr url]> (fr_options fr)))] |}.
Proof.
  intros H fr. unfold call in *. fold fr in H |- *.
  destruct (limit_reached (instance w)); [discriminate|].
  destruct (admitted_cases fr (acquire w))
    as [(url & R & C & E) | (c & _ & E)]; rewrite E in *; simpl in H;
    [|discriminate].
  injection H as <-. split; [reflexivity|]. split; [reflexivity|].
  split; [exact C|]. exists url. split; [exact R | reflexivity].
Qed.

Lemma lit_keys_distinct :
  lit "signal" <> lit "url" /\
  lit "signal" <> lit "abortController" /\
  lit "signal" <> lit "loadingCallback" /\
  lit "url" <> lit "abortController" /\
  lit "url" <> lit "loadingCallback" /\
  lit "loadingCallback" <> lit "abortController".
Proof. repeat split; discriminate. Qed.

(** X4.  The request handed to the transport by a call that is
    dispatched: its [url] is the normalized URL and its [signal] the
    signal of the per-call controller, of the default controller when
    none is given, and [undefined] when the option is [null]; it never
    carries [abortController] or [loadingCallback]; every other option
    passes through untouched.  The store the transport reads is the
    default store at the time of the call. *)
Theorem dispatched_request :
  forall (method : jsstring) (o : obj) (w : world) (id : nat),
    snd (call method o w) = Suspended id ->
    exists url request,
      resolve (delete (lit "loadingCallback")
                 (delete (lit "abortController") o)) (instance w) = Ok url /\
      last (trace (fst (call method o w)))
      = Some (Dispatch id (defaults (instance w)) request) /\
      request !! lit "url" = Some (VStr url) /\
      request !! lit "signal"
      = Some (match prop o (lit "abortController") with
              | VUndefined => VSignal (defaultAbortController (instance w))
              | VController c => VSignal c
              | _ => VUndefined
              end) /\
      request !! lit "abortController" = None /\
      request !! lit "loadingCallback" = None /\
      forall k, ~ reserved_key k -> request !! k = o !! k.
Proof.
  intros method o w id H.
  destruct (call_suspended _ _ _ _ H) as (-> & _ & _ & url & R & E).
  destruct lit_keys_distinct as (K1 & K2 & K3 & K4 & K5 & K6).
  exists url. eexists. split; [exact R|]. rewrite E. cbn [trace].
  split; [rewrite !app_assoc; apply last_snoc|].
  cbn [fr_options fr_abortController bind_parameters].
  split; [|split; [|split; [|split]]].
  - rewrite lookup_insert_ne by exact K1. apply lookup_insert_eq.
  - rewrite lookup_insert_eq. f_equal.
    destruct (prop o (lit "abortController")); reflexivity.
  - rewrite !lookup_insert_ne by congruence.
    rewrite lookup_delete_ne by congruence. apply lookup_delete_eq.
  - rewrite !lookup_insert_ne by congruence. apply lookup_delete_eq.
  - intros k Hk. unfold reserved_key in Hk.
    rewrite !lookup_insert_ne, !lookup_delete_ne; [reflexivity | | | |];
      intros <-; apply Hk; tauto.
Qed.

Lemma dispatched_request_witness :
  let w := boot (Aurora.new api) in
  let o := {[ lit "endpoint" := VStr (lit "/v1/items");
              lit "abortController" := VNull ]} : obj in
  exists url request,
    resolve (delete (lit "loadingCallback")
               (delete (lit "abortController") o)) (instance w) = Ok url /\
    last (trace (fst (call (lit "get") o w)))
    = Some (Dispatch 0 (defaults (instance w)) request) /\
    request !! lit "url" = Some (VStr url) /\
    request !! lit "signal"
    = Some (match prop o (lit "abortController") with
            | VUndefined => VSignal (defaultAbortController (instance w))
            | VController c => VSignal c
            | _ => VUndefined
            end) /\
    request !! lit "abortController" = None /\
    request !! lit "loadingCallback" = None /\
    forall k, ~ reserved_key k -> request !! k = o !! k.
Proof.
  intros w o. apply (dispatched_request (lit "get") o w 0).
  vm_compute. reflexivity.
Defined.

Lemma admitted_not_callable fr w :
  ~ callable_or_absent (fr_loadingCallback fr) ->
  snd (admitted fr w) = Settled (Rejected TypeError).
Proof.
  intros C. unfold admitted, try_block.
  destruct (resolve (fr_options fr) (instance w)) as [url|t].
  - destruct (loading_not_callable (fr_id fr) _ true w C) as [-> _].
    unfold resume.
    destruct (loading_not_callable (fr_id fr) _ false
                (release (fr_id fr) w) C) as [-> _].
    reflexivity.
  - unfold resume.
    destruct (loading_not_callable (fr_id fr) _ false
                (release (fr_id fr) w) C) as [-> _].
    reflexivity.
Qed.

(** X5.  The HTTP method given to [call] is not handed to the
    transport: two calls that differ in the method only perform the same
    effects, dispatch the same request, leave the same fields and start
    or fail alike.  (The method is kept for [recall] alone; the request
    carries a method only if the options do.) *)
Theorem method_not_dispatched :
  forall (m1 m2 : jsstring) (o : obj) (w : world),
    trace (fst (call m1 o w)) = trace (fst (call m2 o w)) /\
    instance (fst (call m1 o w)) = instance (fst (call m2 o w)) /\
    snd (call m1 o w) = snd (call m2 o w) /\
    List.map fr_options (suspended (fst (call m1 o w)))
    = List.map fr_options (suspended (fst (call m2 o w))).
Proof.
  intros m1 m2 o w. unfold call.
  destruct (limit_reached (instance w)); [repeat split; reflexivity|].
  set (fr1 := bind_parameters (instance w) (fresh w) m1 o).
  set (fr2 := bind_parameters (instance w) (fresh w) m2 o).
  pose proof (admitted_not_callable fr1 (acquire w)) as N1.
  pose proof (admitted_not_callable fr2 (acquire w)) as N2.
  destruct (admitted_cases fr1 (acquire w))
    as [(u1 & R1 & C1 & E1) | (c1 & D1 & E1)];
  destruct (admitted_cases fr2 (acquire w))
    as [(u2 & R2 & C2 & E2) | (c2 & D2 & E2)];
    rewrite E1, E2 in *;
    change (fr_options fr2) with (fr_options fr1) in *;
    change (fr_loadingCallback fr2) with (fr_loadingCallback fr1) in *;
    change (fr_abortController fr2) with (fr_abortController fr1) in *;
    change (fr_id fr2) with (fr_id fr1) in *;
    cbn [fst snd trace instance suspended] in *.
  - assert (u1 = u2) as -> by congruence.
    repeat split. rewrite !map_app. reflexivity.
  - exfalso. destruct D2 as [D2|[D2 _]]; [congruence | contradiction].
  - exfalso. destruct D1 as [D1|[D1 _]]; [congruence | contradiction].
  - assert (c1 = c2) as ->.
    { destruct (callable_dec (fr_loadingCallback fr1)) as [C|C].
      - destruct D1 as [D1|[D1 _]]; [|contradiction].
        destruct D2 as [D2|[D2 _]]; [|contradiction].
        congruence.
      - specialize (N1 C). specialize (N2 C). congruence. }
    repeat split.
Qed.

(* ===================================================================== *)
(** ** How an invocation ends *)
(* ===================================================================== *)

(** X6.  A handle is returned in two situations only.  Either the
    transport succeeded: the handle holds the response, no error, and
    [hasError] is false.  Or the transport failed with an [AxiosError]
    that carries a request: the handle holds no response, [hasError] is
    true, and the error copies the message, the code, the status of the
    request, the status of the response (500 when there is no response)
    and the configuration.  In both, the handle keeps the method and the
    options of the invocation for [recall]. *)
Theorem handle_contents :
  forall (fr : frame) (r : result AxiosResponse) (w : world) (h : Handle.t),
    snd (resume fr r w) = Resolved h ->
    Handle.method h = fr_method fr /\
    Handle.options h = fr_options fr /\
    ((exists resp,
         r = Ok resp /\
         Handle.response h = Some resp /\
         Handle.error h = None /\
         Handle.hasError h = false)
     \/
     (exists e req err,
         r = Throw (AxiosError_ e) /\
         request e = Some req /\
         Handle.response h = None /\
         Handle.error h = Some err /\
         Handle.hasError h = true /\
         name err = lit "AuroraPromiseError" /\
         msg err = message e /\
         errorCode err = code e /\
         requestStatus err = prop req (lit "status") /\
         responseStatus err
         = match response e with
           | Some resp => status resp
           | None => JsNumber.of_Z 500
           end /\
         axiosInstanceConfig err = config e)).
Proof.
  intros fr r w h H. unfold resume in H.
  destruct (notify _ _ _ _) as [w2 [t|]]; [discriminate|].
  cbn [snd] in H.
  destruct r as [resp|[e| | |]]; cbn [catch_clause] in H; try discriminate.
  - injection H as <-. repeat split. left. exists resp. repeat split.
  - unfold new_AuroraPromiseError in H.
    destruct (request e) as [req|] eqn:R; [|discriminate].
    cbn [bind] in H. injection H as <-. repeat split.
    right. eexists e, req, _. repeat split. exact R.
Qed.

Lemma handle_contents_witness :
  let fr := bind_parameters (Aurora.new api) 0 (lit "get") items in
  Handle.method
    {| Handle.response := Some ok_response; Handle.error := None;
       Handle.hasError := false; Handle.method := lit "get";
       Handle.options := items |}
  = fr_method fr.
Proof.
  intros fr.
  apply (handle_contents fr (Ok ok_response) (boot (Aurora.new api))).
  vm_compute. reflexivity.
Defined.

(** X7.  For an invocation without a loading callback, an
    [AxiosError] never escapes: when the promise of [call] is rejected
    after the transport has settled, the value is either what the
    transport threw, which is then not an [AxiosError], or the TypeError
    of the constructor of the classified error.  (A loading callback runs
    in the [finally] block, and what it throws would replace the
    outcome.) *)
Theorem rejection_is_not_axios :
  forall (fr : frame) (r : result AxiosResponse) (w : world) (t : thrown),
    truthy (fr_loadingCallback fr) = false ->
    snd (resume fr r w) = Rejected t ->
    is_axios_error t = false /\ (t = TypeError \/ r = Throw t).
Proof.
  intros fr r w t F H. unfold resume, notify in H. rewrite F in H.
  cbn [snd] in H.
  destruct r as [resp|[e| | |]]; cbn [catch_clause] in H;
    try discriminate.
  - unfold new_AuroraPromiseError in H.
    destruct (request e); cbn [bind] in H; [discriminate|].
    injection H as <-. split; [reflexivity | left; reflexivity].
  - injection H as <-. split; [reflexivity | right; reflexivity].
  - injection H as <-. split; [reflexivity | left; reflexivity].
  - injection H as <-. split; [reflexivity | right; reflexivity].
Qed.

Lemma rejection_is_not_axios_witness :
  is_axios_error TypeError = false /\
  (TypeError = TypeError \/
   Throw (AxiosError_ canceled) = Throw (A := AxiosResponse) TypeError).
Proof.
  apply (rejection_is_not_axios
           (bind_parameters (Aurora.new api) 0 (lit "get") items)
           (Throw (AxiosError_ canceled)) (boot (Aurora.new api))).
  - vm_compute. reflexivity.
  - vm_compute. reflexivity.
Defined.

Lemma absent_callable lc : truthy lc = false -> callable_or_absent lc.
Proof. unfold callable_or_absent. congruence. Qed.

(** X8.  An invocation without a loading callback that ends before
    anything is dispatched is rejected, never resolved, and with one of
    three values: the limit error when the gate is closed, and otherwise
    the URL error, or a TypeError when the endpoint is not a string.  (A
    loading callback is user code that runs before the dispatch and may
    throw anything.) *)
Theorem immediate_rejections :
  forall (method : jsstring) (o : obj) (w : world) (c : completion),
    truthy (prop o (lit "loadingCallback")) = false ->
    snd (call method o w) = Settled c ->
    (limit_reached (instance w) = true /\
     c = Rejected (AuroraInstanceError (lit "Request limit exceeded")))
    \/
    (limit_reached (instance w) = false /\
     (c = Rejected (AuroraInstanceError (lit "URL cannot be null")) \/
      c = Rejected TypeError)).
Proof.
  intros method o w c F H. unfold call in H.
  destruct (limit_reached (instance w)).
  - left. injection H as <-. split; reflexivity.
  - right. split; [reflexivity|].
    destruct (admitted_cases
                (bind_parameters (instance w) (fresh w) method o) (acquire w))
      as [(url & _ & _ & E) | (t & D & E)]; rewrite E in H;
      cbn [snd] in H; [discriminate|].
    injection H as <-.
    destruct D as [D|[N _]].
    + destruct (resolve_throws _ _ _ D) as [-> | ->];
        [left | right]; reflexivity.
    + exfalso. apply N, absent_callable. exact F.
Qed.

Lemma immediate_rejections_witness :
  let w := boot aurora in
  (limit_reached (instance w) = true /\
   Rejected (AuroraInstanceError (lit "URL cannot be null"))
   = Rejected (AuroraInstanceError (lit "Request limit exceeded")))
  \/
  (limit_reached (instance w) = false /\
   (Rejected (AuroraInstanceError (lit "URL cannot be null"))
    = Rejected (AuroraInstanceError (lit "URL cannot be null")) \/
    Rejected (AuroraInstanceError (lit "URL cannot be null"))
    = Rejected TypeError)).
Proof.
  intros w. apply (immediate_rejections (lit "get") ∅ w).
  - vm_compute. reflexivity.
  - vm_compute. reflexivity.
Defined.

(** X9.  A call that passes the gate and cannot resolve its URL gives
    the slot back at once: the counter, the limit, the default store and
    the suspended invocations are as before the call, and nothing was
    dispatched. *)
Theorem unresolved_url_leaves_gate :
  forall (method : jsstring) (o : obj) (w : world) (t : thrown),
    limit_reached (instance w) = false ->
    resolve (delete (lit "loadingCallback")
               (delete (lit "abortController") o)) (instance w) = Throw t ->
    let w' := fst (call method o w) in
    requests_current (instance w') = requests_current (instance w) /\
    requests_max (instance w') = requests_max (instance w) /\
    defaults (instance w') = defaults (instance w) /\
    suspended w' = suspended w /\
    (forall id,
        count_effect (is_dispatch id) (trace w')
        = count_effect (is_dispatch id) (trace w)) /\
    exists t', snd (call method o w) = Settled (Rejected t').
Proof.
  intros method o w t L R w'. subst w'. unfold call. rewrite L.
  set (fr := bind_parameters (instance w) (fresh w) method o).
  destruct (admitted_cases fr (acquire w))
    as [(url & R' & _ & _) | (c & _ & ->)].
  - change (resolve (fr_options fr) (instance (acquire w)))
      with (resolve (delete (lit "loadingCallback")
                       (delete (lit "abortController") o)) (instance w)) in R'.
    congruence.
  - cbn [fst snd instance suspended trace fresh].
    split; [simpl; lia|]. split; [reflexivity|]. split; [reflexivity|].
    split; [reflexivity|]. split; [|eexists; reflexivity].
    intros id. unfold count_effect, acquire. cbn [trace].
    rewrite !List.filter_app, !length_app.
    assert (Z : List.filter (is_dispatch id)
                  (loading (fr_id fr) (fr_loadingCallback fr) false) = []).
    { destruct (fr_loadingCallback fr); reflexivity. }
    rewrite Z. simpl. lia.
Qed.

Lemma unresolved_url_leaves_gate_witness :
  let w := run (boot aurora) [Call (lit "get") items] in
  suspended (fst (call (lit "get") ∅ w)) = suspended w.
Proof.
  intros w.
  apply (unresolved_url_leaves_gate (lit "get") ∅ w
           (AuroraInstanceError (lit "URL cannot be null"))).
  - vm_compute. reflexivity.
  - vm_compute. reflexivity.
Defined.

(* ===================================================================== *)
(** ** More on the gate *)
(* ===================================================================== *)

Lemma limit_value_positive limit :
  limit_value limit = JsNumber.PosInf \/
  exists q, limit_value limit = JsNumber.Fin q /\ (0 < q)%Q.
Proof.
  pose proof (limit_value_rule limit) as R.
  remember (limit_value limit) as m eqn:E. clear E.
  destruct R as [q Hq| | | | |]; try (left; reflexivity).
  right. exists q. split; [reflexivity | exact Hq].
Qed.

Lemma step_max_positive w e :
  max_positive (instance w) -> max_positive (instance (step w e)).
Proof.
  intros P. destruct (changes_limit e) eqn:C.
  - destruct e; try discriminate. apply limit_value_positive.
  - unfold max_positive. rewrite (step_max w e C). exact P.
Qed.

Lemma run_max_positive es :
  forall w, max_positive (instance w) -> max_positive (instance (run w es)).
Proof.
  induction es as [|e es IH]; intros w P; simpl; [exact P|].
  apply IH, step_max_positive, P.
Qed.

Lemma new_max_positive o : max_positive (Aurora.new o).
Proof. apply limit_value_positive. Qed.

(** X10.  The gate in every history: on an unbounded instance no call
    is ever turned away; with a finite [max], a call is turned away
    exactly when the number of requests in flight has reached [max].
    [max] itself is never NaN, never negative infinity, and never zero
    or less. *)
Theorem gate_closed_iff_full :
  forall (o : Aurora.options) (es : list event),
    let w := run (boot (Aurora.new o)) es in
    match requests_max (instance w) with
    | JsNumber.PosInf => limit_reached (instance w) = false
    | JsNumber.Fin q =>
        (0 < q)%Q /\
        (limit_reached (instance w) = true
         <-> (q <= inject_Z (Z.of_nat (List.length (suspended w))))%Q)
    | _ => False
    end.
Proof.
  intros o es w.
  assert (C : consistent w).
  { apply consistent_run, consistent_boot, new_current. }
  assert (P : max_positive (instance w)).
  { apply run_max_positive, new_max_positive. }
  unfold limit_reached, JsNumber.ge, JsNumber.le, JsNumber.of_Z.
  rewrite (counted w C).
  destruct P as [-> | [q [-> Hq]]]; [reflexivity|].
  split; [exact Hq|].
  destruct (Qcompare_spec q (inject_Z (Z.of_nat (List.length (suspended w)))))
    as [E|L|G].
  - split; [intros _; rewrite E; apply Qle_refl | reflexivity].
  - split; [intros _; apply Qlt_le_weak, L | reflexivity].
  - split; [discriminate|]. intros H. exfalso.
    exact (Qlt_irrefl _ (Qlt_le_trans _ _ _ G H)).
Qed.

(** X11.  An idle instance always admits: whatever happened before,
    when no request is in flight the next call passes the gate. *)
Theorem idle_instance_admits :
  forall (o : Aurora.options) (es : list event),
    let w := run (boot (Aurora.new o)) es in
    suspended w = [] -> limit_reached (instance w) = false.
Proof.
  intros o es w Hs.
  assert (C : consistent w).
  { apply consistent_run, consistent_boot, new_current. }
  assert (P : max_positive (instance w)).
  { apply run_max_positive, new_max_positive. }
  unfold limit_reached, JsNumber.ge, JsNumber.le, JsNumber.of_Z.
  rewrite (counted w C), Hs.
  destruct P as [-> | [q [-> Hq]]]; [reflexivity|].
  change (inject_Z (Z.of_nat (List.length (@nil frame)))) with 0%Q.
  destruct (Qcompare_spec q 0) as [E|L|G]; [| |reflexivity]; exfalso.
  - rewrite E in Hq. exact (Qlt_irrefl _ Hq).
  - exact (Qlt_irrefl _ (Qlt_trans _ _ _ Hq L)).
Qed.

Lemma idle_instance_admits_witness :
  limit_reached
    (instance
       (run (boot (Aurora.new (limited (JsNumber.of_Z 1))))
            [Call (lit "get") items; Call (lit "get") items;
             SetMaxConcurrentRequestsLimit (Some (JsNumber.Fin (1 # 2)));
             Settle 0 (Throw (AxiosError_ canceled))]))
  = false.
Proof.
  apply (idle_instance_admits (limited (JsNumber.of_Z 1))).
  vm_compute. reflexivity.
Defined.

Lemma is_dispatch_own id e : is_dispatch id e = true -> effect_id e = id.
Proof. destruct e; simpl; try discriminate. apply Nat.eqb_eq. Qed.

(** X12.  The transport is invoked at most once per invocation of
    [call], and only for an invocation that passed the gate: in every
    history the dispatches of an invocation number at most its
    increments of the counter, which number at most one. *)
Theorem dispatch_at_most_once :
  forall (o : Aurora.options) (es : list event) (id : nat),
    let tr := trace (run (boot (Aurora.new o)) es) in
    (count_effect (is_dispatch id) tr <= count_effect (is_acquire id) tr)%nat /\
    (count_effect (is_acquire id) tr <= 1)%nat.
Proof.
  intros o es id tr.
  assert (C : consistent (run (boot (Aurora.new o)) es)).
  { apply consistent_run, consistent_boot, new_current. }
  pose proof (consistent_lifecycle _ C id) as L. fold tr in L.
  rewrite (count_own_effects _ id _ (is_dispatch_own id)).
  rewrite (count_own_effects _ id _ (is_acquire_own id)).
  destruct L as [|lc ? ?|lc ? ?|lc]; [unfold count_effect; simpl; lia| | |];
    destruct lc; unfold count_effect; simpl;
    rewrite ?Nat.eqb_refl; simpl; lia.
Qed.


(* ===================================================================== *)
(** ** More on the default store *)
(* ===================================================================== *)

Lemma with_current_self (a : Aurora.t) :
  with_current (requests_current a) a = a.
Proof. destruct a; reflexivity. Qed.

Lemma with_params_self (a : Aurora.t) :
  with_defaults (with_params (params (defaults a)) (defaults a)) a = a.
Proof. destruct a as [[] ? ? ? ?]; reflexivity. Qed.

(** A request event changes the counter only. *)
Lemma request_step_instance w e :
  is_request e = true ->
  exists c, instance (step w e) = with_current c (instance w).
Proof.
  destruct e; try discriminate; intros _; simpl.
  - unfold call. destruct (limit_reached (instance w)).
    + eexists. symmetry. apply with_current_self.
    + destruct (admitted_cases
                  (bind_parameters (instance w) (fresh w) method options0)
                  (acquire w))
        as [(url & _ & _ & ->) | (c & _ & ->)]; eexists; reflexivity.
  - unfold settle. destruct (take _ _) as [[fr rest]|].
    + match goal with
      | |- context [resume fr r ?w1] =>
          pose proof (resume_world fr r w1) as RW;
          destruct (resume fr r w1) as [w2 c]
      end.
      cbn [fst] in *. subst w2. eexists. reflexivity.
    + eexists. symmetry. apply with_current_self.
Qed.

(** The two methods on default parameters change nothing else, whether
    they throw or not. *)
Lemma addParams_only_params ps a :
  exists p,
    or_unchanged a (addParams ps a)
    = with_defaults (with_params p (defaults a)) a.
Proof.
  unfold addParams. destruct (params (defaults a)) eqn:E; simpl.
  - eexists. reflexivity.
  - exists None. rewrite <- E. symmetry. apply with_params_self.
Qed.

Lemma removeParams_only_params names a :
  exists p,
    or_unchanged a (removeParams names a)
    = with_defaults (with_params p (defaults a)) a.
Proof.
  destruct names as [names|]; [|eexists; reflexivity].
  unfold removeParams.
  assert (G : forall acc,
    (acc = Throw TypeError \/
     exists p, acc = Ok (with_defaults (with_params p (defaults a)) a)) ->
    exists p,
      or_unchanged a
        (fold_left (fun acc param => try! a' := acc in delete_param param a')
                   names acc)
      = with_defaults (with_params p (defaults a)) a).
  { induction names as [|x names IH]; intros acc Hacc; simpl.
    - destruct Hacc as [-> | [p ->]]; simpl.
      + eexists. symmetry. apply with_params_self.
      + exists p. reflexivity.
    - apply IH. destruct Hacc as [-> | [p ->]]; simpl; [left; reflexivity|].
      unfold delete_param. simpl. destruct p; [right|left]; eauto. }
  apply G. right. exists (params (defaults a)).
  rewrite with_params_self. reflexivity.
Qed.

(** X13.  The default store and the gate do not interfere.  A call, or
    the settlement of one, never changes the default store, the limit or
    the default controller; every other method leaves the counter, the
    suspended invocations and the effects performed so far as they
    are. *)
Theorem store_and_gate_are_separate :
  forall (w : world) (e : event),
    if is_request e
    then defaults (instance (step w e)) = defaults (instance w) /\
         requests_max (instance (step w e)) = requests_max (instance w) /\
         aborted (instance (step w e)) = aborted (instance w) /\
         defaultAbortController (instance (step w e))
         = defaultAbortController (instance w)
    else suspended (step w e) = suspended w /\
         trace (step w e) = trace w /\
         fresh (step w e) = fresh w /\
         requests_current (instance (step w e))
         = requests_current (instance w).
Proof.
  intros w e. destruct (is_request e) eqn:R.
  - destruct (request_step_instance w e R) as [c ->]. repeat split.
  - destruct e; try discriminate; simpl; repeat split.
    + destruct headerNames; reflexivity.
    + destruct (addParams_only_params ps (instance w)) as [p ->]. reflexivity.
    + destruct (removeParams_only_params paramNames (instance w)) as [p ->].
      reflexivity.
Qed.

(** X14.  Each group of store methods changes its own part of the
    default store only: the header methods leave parameters, timeout and
    base URL alone, the parameter methods leave headers, timeout and base
    URL alone (also when they throw), and the timeout methods leave
    headers, parameters and base URL alone. *)
Theorem store_methods_are_local :
  forall (a : Aurora.t),
    (forall ev,
        match ev with
        | AddHeaders _ | RemoveHeaders _ =>
            let d := defaults (instance (step (boot a) ev)) in
            params d = params (defaults a) /\
            timeout d = timeout (defaults a) /\
            baseURL d = baseURL (defaults a)
        | AddParams _ | RemoveParams _ =>
            let d := defaults (instance (step (boot a) ev)) in
            headers_common d = headers_common (defaults a) /\
            timeout d = timeout (defaults a) /\
            baseURL d = baseURL (defaults a)
        | SetTimeout _ | RemoveTimeout =>
            let d := defaults (instance (step (boot a) ev)) in
            headers_common d = headers_common (defaults a) /\
            params d = params (defaults a) /\
            baseURL d = baseURL (defaults a)
        | _ => True
        end).
Proof.
  intros a ev. destruct ev; simpl; try exact I; repeat split.
  - destruct headerNames; reflexivity.
  - destruct headerNames; reflexivity.
  - destruct headerNames; reflexivity.
  - destruct (addParams_only_params ps a) as [p ->]. reflexivity.
  - destruct (addParams_only_params ps a) as [p ->]. reflexivity.
  - destruct (addParams_only_params ps a) as [p ->]. reflexivity.
  - destruct (removeParams_only_params paramNames a) as [p ->]. reflexivity.
  - destruct (removeParams_only_params paramNames a) as [p ->]. reflexivity.
  - destruct (removeParams_only_params paramNames a) as [p ->]. reflexivity.
Qed.

Lemma step_fixed w e :
  baseURL (defaults (instance (step w e))) = baseURL (defaults (instance w)) /\
  defaultAbortController (instance (step w e))
  = defaultAbortController (instance w) /\
  aborted (instance (step w e)) = aborted (instance w) || is_abort e.
Proof.
  destruct (is_request e) eqn:R.
  - destruct (request_step_instance w e R) as [c ->].
    destruct e; try discriminate; simpl; rewrite orb_false_r; repeat split.
  - destruct e; try discriminate; simpl; rewrite ?orb_false_r, ?orb_true_r;
      repeat split; try (destruct headerNames; reflexivity).
    all: try (destruct (addParams_only_params ps (instance w)) as [p ->];
              reflexivity).
    all: destruct (removeParams_only_params paramNames (instance w))
           as [p ->]; reflexivity.
Qed.

Lemma run_fixed es :
  forall w,
    baseURL (defaults (instance (run w es))) = baseURL (defaults (instance w)) /\
    defaultAbortController (instance (run w es))
    = defaultAbortController (instance w) /\
    aborted (instance (run w es))
    = aborted (instance w) || existsb is_abort es.
Proof.
  induction es as [|e es IH]; intros w; simpl.
  - rewrite orb_false_r. repeat split.
  - destruct (IH (step w e)) as (B & D & A).
    destruct (step_fixed w e) as (B' & D' & A').
    rewrite B, D, A, B', D', A'. rewrite orb_assoc. repeat split.
Qed.



(** X21.  The base URL of an instance is, in every history, the [url]
    given to the constructor, or the empty string when none was given:
    the constructor overwrites the base URL of the axios instance it
    receives, and nothing changes it afterwards. *)
Theorem base_url_is_constructor_url :
  forall (o : Aurora.options) (es : list event),
    baseURL (defaults (instance (run (boot (Aurora.new o)) es)))
    = Some (default [] (url o)).
Proof.
  intros o es. destruct (run_fixed es (boot (Aurora.new o))) as [-> _].
  reflexivity.
Qed.

(** X16.  Adding default headers and then removing their names leaves
    what removing the names alone would have left: whatever [addHeaders]
    overwrote stays lost, and nothing of the added map survives. *)
Theorem headers_added_then_removed :
  forall (a : Aurora.t) (headers : obj) (names : list jsstring),
    (forall k, is_Some (headers !! k) -> k ∈ names) ->
    default_headers (removeHeaders (Some names) (addHeaders headers a))
    = default_headers (removeHeaders (Some names) a).
Proof.
  intros a headers names H. unfold default_headers; simpl.
  apply map_eq. intros k. rewrite !lookup_fold_delete.
  case_decide as Hk; [reflexivity|].
  rewrite lookup_assign.
  destruct (headers !! k) eqn:E; [|reflexivity].
  exfalso. apply Hk, H. rewrite E. eauto.
Qed.

Lemma headers_added_then_removed_witness :
  default_headers
    (removeHeaders (Some [lit "Accept"; lit "Authorization"])
       (addHeaders {[ lit "Accept" := VStr (lit "text/html") ]} aurora))
  = default_headers
      (removeHeaders (Some [lit "Accept"; lit "Authorization"]) aurora).
Proof.
  apply headers_added_then_removed.
  intros k [v Hk].
  destruct (decide (k = lit "Accept")) as [->|Hne]; [set_solver|].
  rewrite lookup_singleton_ne in Hk by congruence. discriminate.
Defined.






Lemma step_timeout w e :
  timeout (defaults (instance (step w e)))
  = match e with
    | SetTimeout y => Some y
    | RemoveTimeout => None
    | _ => timeout (defaults (instance w))
    end.
Proof.
  destruct (is_request e) eqn:R.
  - destruct (request_step_instance w e R) as [c ->].
    destruct e; try discriminate; reflexivity.
  - destruct e; try discriminate; simpl; try reflexivity.
    + destruct headerNames; reflexivity.
    + destruct (addParams_only_params ps (instance w)) as [p ->]. reflexivity.
    + destruct (removeParams_only_params paramNames (instance w)) as [p ->].
      reflexivity.
Qed.

(** X19.  The default timeout after any history is the argument of the
    last [setTimeout], none if [removeTimeout] came later, and the
    initial one if neither occurred: no other method, and no request,
    touches it. *)
Theorem timeout_is_last_set :
  forall (es : list event) (w : world),
    timeout (defaults (instance (run w es)))
    = timeout_after es (timeout (defaults (instance w))).
Proof.
  induction es as [|e es IH]; intros w; simpl; [reflexivity|].
  unfold timeout_after in *. simpl. rewrite IH, step_timeout. reflexivity.
Qed.


(* ===================================================================== *)
(** ** More on [recall] *)
(* ===================================================================== *)

Lemma resolved_handle_env fr r w h :
  snd (resume fr r w) = Resolved h ->
  Handle.method h = fr_method fr /\ Handle.options h = fr_options fr.
Proof.
  unfold resume. intros H.
  destruct (notify _ _ _ _) as [w2 [t|]]; [discriminate|].
  simpl in H. destruct (catch_clause r) as [[[resp err] he]|t];
    [|discriminate].
  injection H as <-. split; reflexivity.
Qed.

(** X20.  Overrides given to [recall] persist.  The invocation a recall
    starts runs under the method of the handle and under the handle's
    options overridden by the custom ones, minus [abortController] and
    [loadingCallback]; the handle it resolves to carries exactly these,
    so a further [recall] builds on the overrides, but has to be given
    the controller and the callback again. *)
Theorem recall_keeps_overrides :
  forall (h : Handle.t) (customOptions : option obj) (w : world) (id : nat),
    snd (recall h customOptions w) = Suspended id ->
    exists fr,
      last (suspended (fst (recall h customOptions w))) = Some fr /\
      fr_id fr = id /\
      fr_method fr = Handle.method h /\
      (forall k,
          fr_options fr !! k
          = if decide (k = lit "abortController" \/ k = lit "loadingCallback")
            then None
            else match default ∅ customOptions !! k with
                 | Some v => Some v
                 | None => Handle.options h !! k
                 end) /\
      (forall r w' h',
          snd (resume fr r w') = Resolved h' ->
          Handle.method h' = Handle.method h /\
          Handle.options h' = fr_options fr).
Proof.
  intros h customOptions w id H. unfold recall in *.
  destruct (call_suspended _ _ _ _ H) as (-> & _ & _ & url & _ & E).
  eexists. rewrite E. cbn [suspended].
  split; [apply last_snoc|]. split; [reflexivity|]. split; [reflexivity|].
  split.
  - intros k. cbn [fr_options bind_parameters]. unfold spread.
    case_decide as Hk.
    + destruct Hk as [-> | ->].
      * rewrite lookup_delete_ne by discriminate. apply lookup_delete_eq.
      * apply lookup_delete_eq.
    + rewrite !lookup_delete_ne by (intros <-; tauto).
      rewrite lookup_union.
      destruct (default ∅ customOptions !! k), (Handle.options h !! k);
        reflexivity.
  - intros r w' h' R. apply resolved_handle_env in R. exact R.
Qed.

Lemma recall_keeps_overrides_witness :
  let h := {| Handle.response := Some ok_response; Handle.error := None;
              Handle.hasError := false; Handle.method := lit "get";
              Handle.options := items |} in
  let custom := Some ({[ lit "timeout" := VNum (JsNumber.of_Z 500);
                         lit "loadingCallback" := VFun 7%nat ]} : obj) in
  let w := boot (Aurora.new api) in
  exists fr,
    last (suspended (fst (recall h custom w))) = Some fr /\
    fr_id fr = 0%nat /\
    fr_method fr = Handle.method h /\
    (forall k,
        fr_options fr !! k
        = if decide (k = lit "abortController" \/ k = lit "loadingCallback")
          then None
          else match default ∅ custom !! k with
               | Some v => Some v
               | None => Handle.options h !! k
               end) /\
    (forall r w' h',
        snd (resume fr r w') = Resolved h' ->
        Handle.method h' = Handle.method h /\
        Handle.options h' = fr_options fr).
Proof.
  intros h custom w. apply (recall_keeps_overrides h custom w 0).
  vm_compute. reflexivity.
Defined.
